(** * TCD1304 reader firmware (Pico2): command interpreter, line reader,
      capture engine, statistics and report encoders.

    Shallow embedding of [tcd1304_reader.c] (v0.3) and proofs of the
    properties its specification states.

    The firmware is single-threaded C that talks to peripherals.  It is
    modelled by explicit state passing over a [World]: the firmware's global
    variables, the values every peripheral is still going to deliver (one
    script per peripheral, consumed from the front), and what the firmware
    has produced so far.  A call that blocks on a peripheral whose script is
    exhausted never returns; the model then yields [None]. *)

From Stdlib Require Import ZArith List String Ascii Lia Bool.
From Stdlib Require Import Floats.SpecFloat.
From Stdlib Require Import DecimalString DecimalPos DecimalZ.
From stdpp Require Import base list.
Import ListNotations.

Local Open Scope Z_scope.

(** ** Characters and text *)

Definition chars (s : string) : list ascii := list_ascii_of_string s.

Definition NUL : ascii := "000"%char.
Definition BS : ascii := "008"%char.
Definition NL : ascii := "010"%char.
Definition CR : ascii := "013"%char.

Definition char_is (c d : ascii) : bool := Ascii.eqb c d.

(** [printf("%d")] and [printf("%u")] of a value that fits its type. *)
Definition decimal (z : Z) : list ascii :=
  chars (NilZero.string_of_int (Z.to_int z)).

(** Wrap-around of the fixed-width unsigned containers. *)
Definition to_uint8 (z : Z) : Z := z mod 2 ^ 8.
Definition to_uint16 (z : Z) : Z := z mod 2 ^ 16.
Definition to_uint32 (z : Z) : Z := z mod 2 ^ 32.

(** ** Hardware interactions, in program order *)

Inductive event : Type :=
| EvIcg (level : bool)            (* gpio_get(ICG_PIN) returned [level] *)
| EvLed (level : bool)            (* gpio_put(LED_PIN, level) *)
| EvTime (t : Z)                  (* time_us_32() returned [t] *)
| EvAdcRun (on : bool)            (* adc_run(on) *)
| EvFifoGet (v : Z)               (* adc_fifo_get_blocking() returned [v] *)
| EvFifoDrain                     (* adc_fifo_drain() *)
| EvAdcRead (v : Z)               (* adc_read() returned [v] *)
| EvI2cWrite (addr : Z) (payload : list Z) (ret : Z).
                                  (* i2c_write_blocking(i2c0, addr, payload, len, false) *)

(** ** The world *)

Record World : Type := mkWorld {
  (* globals of the firmware *)
  override_led : Z;               (* uint8_t override_led *)
  msg_bytes : list Z;             (* uint8_t msg_bytes[4] *)
  adc_samples : list Z;           (* uint16_t adc_samples[N_SAMPLES] *)
  bufA : list ascii;              (* char bufA[NBUFA] *)
  (* what the peripherals will deliver, oldest first *)
  stdin : list ascii;
  icg_levels : list bool;
  adc_fifo : list Z;
  adc_conv : list Z;
  timer : list Z;
  i2c_acks : list Z;
  (* what the firmware has produced *)
  stdout : list ascii;
  led : bool;
  trace : list event;
  (* the build: [a * b + c] on floats is one fused multiply-add *)
  fp_contract : bool
}.

Definition N_SAMPLES : nat := 3800.
Definition NBUFA : Z := 80.
Definition VERSION_STR : string :=
  "v0.3 2025-01-08 TCD1304DG linear-image-sensor reader".

Definition set_override_led (v : Z) (w : World) : World :=
  mkWorld v (msg_bytes w) (adc_samples w) (bufA w) (stdin w) (icg_levels w)
    (adc_fifo w) (adc_conv w) (timer w) (i2c_acks w) (stdout w) (led w) (trace w)
    (fp_contract w).
Definition set_msg_bytes (v : list Z) (w : World) : World :=
  mkWorld (override_led w) v (adc_samples w) (bufA w) (stdin w) (icg_levels w)
    (adc_fifo w) (adc_conv w) (timer w) (i2c_acks w) (stdout w) (led w) (trace w)
    (fp_contract w).
Definition set_adc_samples (v : list Z) (w : World) : World :=
  mkWorld (override_led w) (msg_bytes w) v (bufA w) (stdin w) (icg_levels w)
    (adc_fifo w) (adc_conv w) (timer w) (i2c_acks w) (stdout w) (led w) (trace w)
    (fp_contract w).
Definition set_bufA (v : list ascii) (w : World) : World :=
  mkWorld (override_led w) (msg_bytes w) (adc_samples w) v (stdin w) (icg_levels w)
    (adc_fifo w) (adc_conv w) (timer w) (i2c_acks w) (stdout w) (led w) (trace w)
    (fp_contract w).
Definition set_stdin (v : list ascii) (w : World) : World :=
  mkWorld (override_led w) (msg_bytes w) (adc_samples w) (bufA w) v (icg_levels w)
    (adc_fifo w) (adc_conv w) (timer w) (i2c_acks w) (stdout w) (led w) (trace w)
    (fp_contract w).
Definition set_icg_levels (v : list bool) (w : World) : World :=
  mkWorld (override_led w) (msg_bytes w) (adc_samples w) (bufA w) (stdin w) v
    (adc_fifo w) (adc_conv w) (timer w) (i2c_acks w) (stdout w) (led w) (trace w)
    (fp_contract w).
Definition set_adc_fifo (v : list Z) (w : World) : World :=
  mkWorld (override_led w) (msg_bytes w) (adc_samples w) (bufA w) (stdin w) (icg_levels w)
    v (adc_conv w) (timer w) (i2c_acks w) (stdout w) (led w) (trace w)
    (fp_contract w).
Definition set_adc_conv (v : list Z) (w : World) : World :=
  mkWorld (override_led w) (msg_bytes w) (adc_samples w) (bufA w) (stdin w) (icg_levels w)
    (adc_fifo w) v (timer w) (i2c_acks w) (stdout w) (led w) (trace w)
    (fp_contract w).
Definition set_timer (v : list Z) (w : World) : World :=
  mkWorld (override_led w) (msg_bytes w) (adc_samples w) (bufA w) (stdin w) (icg_levels w)
    (adc_fifo w) (adc_conv w) v (i2c_acks w) (stdout w) (led w) (trace w)
    (fp_contract w).
Definition set_i2c_acks (v : list Z) (w : World) : World :=
  mkWorld (override_led w) (msg_bytes w) (adc_samples w) (bufA w) (stdin w) (icg_levels w)
    (adc_fifo w) (adc_conv w) (timer w) v (stdout w) (led w) (trace w)
    (fp_contract w).
Definition set_stdout (v : list ascii) (w : World) : World :=
  mkWorld (override_led w) (msg_bytes w) (adc_samples w) (bufA w) (stdin w) (icg_levels w)
    (adc_fifo w) (adc_conv w) (timer w) (i2c_acks w) v (led w) (trace w)
    (fp_contract w).
Definition set_led (v : bool) (w : World) : World :=
  mkWorld (override_led w) (msg_bytes w) (adc_samples w) (bufA w) (stdin w) (icg_levels w)
    (adc_fifo w) (adc_conv w) (timer w) (i2c_acks w) (stdout w) v (trace w)
    (fp_contract w).
Definition set_trace (v : list event) (w : World) : World :=
  mkWorld (override_led w) (msg_bytes w) (adc_samples w) (bufA w) (stdin w) (icg_levels w)
    (adc_fifo w) (adc_conv w) (timer w) (i2c_acks w) (stdout w) (led w) v
    (fp_contract w).
Definition set_fp_contract (v : bool) (w : World) : World :=
  mkWorld (override_led w) (msg_bytes w) (adc_samples w) (bufA w) (stdin w) (icg_levels w)
    (adc_fifo w) (adc_conv w) (timer w) (i2c_acks w) (stdout w) (led w) (trace w) v.

Definition log (e : event) (w : World) : World :=
  set_trace (trace w ++ [e]) w.

(** ** A state monad with divergence *)

Definition M (A : Type) : Type := World -> option (A * World).

Definition ret {A} (a : A) : M A := fun w => Some (a, w).

Definition bind {A B} (m : M A) (k : A -> M B) : M B :=
  fun w => match m w with
           | Some (a, w') => k a w'
           | None => None
           end.

Declare Scope fw_scope.
Delimit Scope fw_scope with fw.
Notation "x <- m ;; k" := (bind m (fun x => k))
  (at level 100, m at next level, right associativity) : fw_scope.
Notation "m ;; k" := (bind m (fun _ => k))
  (at level 100, right associativity) : fw_scope.
Local Open Scope fw_scope.

Definition when (b : bool) (m : M unit) : M unit :=
  if b then m else ret tt.

(** [for (size_t j = start; j < start + count; ++j) body(j)] *)
Fixpoint for_from (start count : nat) (body : nat -> M unit) : M unit :=
  match count with
  | O => ret tt
  | S k => body start ;; for_from (S start) k body
  end.

Definition for_upto (n : nat) (body : nat -> M unit) : M unit :=
  for_from 0 n body.

(** ** Peripheral and library primitives *)

Definition printf (s : list ascii) : M unit :=
  fun w => Some (tt, set_stdout (stdout w ++ s) w).

Definition gpio_put_led (level : bool) : M unit :=
  fun w => Some (tt, log (EvLed level) (set_led level w)).

Definition time_us_32 : M Z :=
  fun w => match timer w with
           | [] => None
           | t :: rest => Some (t, log (EvTime t) (set_timer rest w))
           end.

Definition adc_run (on : bool) : M unit :=
  fun w => Some (tt, log (EvAdcRun on) w).

Definition adc_fifo_get_blocking : M Z :=
  fun w => match adc_fifo w with
           | [] => None
           | v :: rest => Some (v, log (EvFifoGet v) (set_adc_fifo rest w))
           end.

Definition adc_fifo_drain : M unit :=
  fun w => Some (tt, log EvFifoDrain w).

Definition adc_read : M Z :=
  fun w => match adc_conv w with
           | [] => None
           | v :: rest => Some (v, log (EvAdcRead v) (set_adc_conv rest w))
           end.

Definition i2c_write_blocking (addr : Z) (payload : list Z) : M Z :=
  fun w => match i2c_acks w with
           | [] => None
           | r :: rest => Some (r, log (EvI2cWrite addr payload r) (set_i2c_acks rest w))
           end.

(** ** Line reader: [getstr] *)

(** State of the [while (!done)] loop of [getstr]: the buffer, the index [i],
    and the indices the loop has stored to (oldest first). *)
Record line_state : Type := mkLine {
  ls_buf : list ascii;
  ls_i : Z;
  ls_writes : list Z
}.

Definition store_char (c : ascii) (st : line_state) : line_state :=
  mkLine (<[Z.to_nat (ls_i st) := c]> (ls_buf st)) (ls_i st) (ls_writes st ++ [ls_i st]).

(** One pass through the loop body for the character [c]; the boolean is
    [done]. *)
Definition getstr_step (nbuf : Z) (c : ascii) (st : line_state) : line_state * bool :=
  let st1 :=
    if negb (char_is c NL) && negb (char_is c CR) && negb (char_is c BS)
       && (ls_i st <? nbuf - 1)
    then let s := store_char c st in mkLine (ls_buf s) (ls_i s + 1) (ls_writes s)
    else st in
  let '(st2, done) :=
    if char_is c NL then (store_char NUL st1, true) else (st1, false) in
  let st3 :=
    if char_is c BS && (ls_i st2 >? 0)
    then mkLine (ls_buf st2) (ls_i st2 - 1) (ls_writes st2)
    else st2 in
  (st3, done).

(** The loop, one character of the input per iteration.  Runs out of input
    before a new-line: blocked in [getc] for ever. *)
Fixpoint getstr_loop (nbuf : Z) (input : list ascii) (st : line_state)
  : option (line_state * list ascii) :=
  match input with
  | [] => None
  | c :: rest =>
      let '(st', done) := getstr_step nbuf c st in
      if done then Some (st', rest) else getstr_loop nbuf rest st'
  end.

Definition getstr_run (nbuf : Z) (input : list ascii) (buf : list ascii)
  : option (line_state * list ascii) :=
  getstr_loop nbuf input (mkLine buf 0 []).

(** [getstr(bufA, nbuf)] on the world. *)
Definition getstr (nbuf : Z) : M Z :=
  fun w => match getstr_run nbuf (stdin w) (bufA w) with
           | None => None
           | Some (st, rest) => Some (ls_i st, set_stdin rest (set_bufA (ls_buf st) w))
           end.

(** The C string held in a buffer: the characters before the first
    terminator. *)
Fixpoint cstring (buf : list ascii) : list ascii :=
  match buf with
  | [] => []
  | c :: rest => if char_is c NUL then [] else c :: cstring rest
  end.

(** ** C library: [strtok] and [atoi] *)

(** Membership in [sep_tok = ", "]. *)
Definition is_sep (c : ascii) : bool :=
  char_is c ","%char || char_is c " "%char.

Fixpoint skip_seps (s : list ascii) : list ascii :=
  match s with
  | c :: rest => if is_sep c then skip_seps rest else s
  | [] => []
  end.

(** The token at the head of [s], and the text after the separator that
    ends it ([strtok] overwrites that separator with a terminator and keeps
    a pointer to what follows). *)
Fixpoint split_token (s : list ascii) : list ascii * list ascii :=
  match s with
  | [] => ([], [])
  | c :: rest =>
      if is_sep c then ([], rest)
      else let '(tok, after) := split_token rest in (c :: tok, after)
  end.

(** [strtok(s, sep_tok)]: [None] is the null pointer; otherwise the token
    and the text a following [strtok(NULL, sep_tok)] continues from. *)
Definition strtok (s : list ascii) : option (list ascii * list ascii) :=
  match skip_seps s with
  | [] => None
  | s' => Some (split_token s')
  end.

Definition is_space (c : ascii) : bool :=
  char_is c " "%char || char_is c "009"%char || char_is c NL
  || char_is c "011"%char || char_is c "012"%char || char_is c CR.

Fixpoint skip_spaces (s : list ascii) : list ascii :=
  match s with
  | c :: rest => if is_space c then skip_spaces rest else s
  | [] => []
  end.

Definition digit_of (c : ascii) : option Z :=
  let n := Z.of_nat (nat_of_ascii c) in
  if (48 <=? n) && (n <=? 57) then Some (n - 48) else None.

Fixpoint digits_value (s : list ascii) (acc : Z) : Z :=
  match s with
  | c :: rest =>
      match digit_of c with
      | Some d => digits_value rest (10 * acc + d)
      | None => acc
      end
  | [] => acc
  end.

Definition INT_MAX : Z := 2 ^ 31 - 1.
Definition INT_MIN : Z := - 2 ^ 31.

(** [atoi]: optional white space, optional sign, decimal digits; anything
    else ends the number, and no digits at all gives 0.  A value outside
    [int] is clamped, as the [strtol] behind it does (32-bit [long]). *)
Definition atoi (s : list ascii) : Z :=
  let s := skip_spaces s in
  let v :=
    match s with
    | c :: rest =>
        if char_is c "-"%char then - digits_value rest 0
        else if char_is c "+"%char then digits_value rest 0
        else digits_value s 0
    | [] => 0
    end in
  Z.max INT_MIN (Z.min INT_MAX v).

(** ** Single-precision arithmetic of the statistics *)

Definition float : Type := spec_float.

Definition f32_zero : float := S754_zero false.
Definition f32_of_Z (z : Z) : float := binary_normalize 24 128 z 0 false.
Definition f32_add : float -> float -> float := SFadd 24 128.
Definition f32_sub : float -> float -> float := SFsub 24 128.
Definition f32_mul : float -> float -> float := SFmul 24 128.
Definition f32_div : float -> float -> float := SFdiv 24 128.

(** Fused multiply-add, [x * y + z] with one rounding: the exact product,
    a mantissa of up to 48 bits, goes into the addition. With [z] zero the
    sum is the rounded product; an infinite [z] absorbs a finite product,
    however large. *)
Definition f32_fma (x y z : float) : float :=
  match x, y, z with
  | S754_finite sx mx ex, S754_finite sy my ey, S754_finite _ _ _ =>
      f32_add (S754_finite (xorb sx sy) (mx * my) (ex + ey)) z
  | S754_finite _ _ _, S754_finite _ _ _, S754_infinity _ => z
  | _, _, _ => f32_add (f32_mul x y) z
  end.

(** Conversion between the formats: exact towards [double], rounded to
    nearest-even towards [float]. *)
Definition convert (prec emax : Z) (x : spec_float) : spec_float :=
  match x with
  | S754_finite s m e => binary_round prec emax s m e
  | _ => x
  end.

(** [sqrt] is the [double] function: its [float] argument is widened, and
    the result is narrowed when it is assigned to a [float]. *)
Definition sqrt_to_float (x : float) : float :=
  convert 24 128 (SFsqrt 53 1024 (convert 53 1024 x)).

(** A [for] loop that only updates a local variable. *)
Definition accumulate {A} (n : nat) (body : nat -> A -> A) (init : A) : A :=
  fold_left (fun acc j => body j acc) (seq 0 n) init.

(** The statistics of case ['b']: [mean] and [stddev]. *)
Definition batch_mean (samples : list Z) : float :=
  let n := f32_of_Z (Z.of_nat N_SAMPLES) in
  let mean :=
    accumulate N_SAMPLES (fun j mean => f32_add mean (f32_of_Z (nth j samples 0)))
      f32_zero in
  f32_div mean n.

(** [variance += diff * diff]: the product is rounded and then added, or,
    where the compiler contracts the expression (GCC does by default for
    [gnu11] when the target has the instruction), the exact product is
    added to [variance] and the result rounded once. *)
Definition variance_step (fused : bool) (variance diff : float) : float :=
  if fused then f32_fma diff diff variance
  else f32_add variance (f32_mul diff diff).

Definition batch_stddev (fused : bool) (samples : list Z) (mean : float) : float :=
  let n := f32_of_Z (Z.of_nat N_SAMPLES) in
  let variance :=
    accumulate N_SAMPLES
      (fun j variance =>
         let diff := f32_sub (f32_of_Z (nth j samples 0)) mean in
         variance_step fused variance diff)
      f32_zero in
  sqrt_to_float (f32_div variance (f32_sub n (f32_of_Z 1))).

(** ** Packed report alphabet *)

Definition base64_alphabet : list ascii :=
  chars "ABCDEFGHIJKLMNOPQRSTUVWXYZabcdefghijklmnopqrstuvwxyz0123456789+/".

Definition alphabet_at (i : Z) : ascii := nth (Z.to_nat i) base64_alphabet NUL.

(** The two characters of one sample in case ['q']. *)
Definition packed_pair (val : Z) : list ascii :=
  let hi := alphabet_at (Z.shiftr (Z.land val 0x0FFF) 6) in
  let lo := alphabet_at (Z.land val 0x003F) in
  [hi; lo].

(** ** Capture *)

(** [while (gpio_get(ICG_PIN) == level) { }]: the readings taken, the last
    of which ends the wait, and the readings still to come. *)
Fixpoint poll_while (level : bool) (readings : list bool)
  : option (list bool * list bool) :=
  match readings with
  | [] => None
  | b :: rest =>
      if Bool.eqb b level
      then match poll_while level rest with
           | Some (seen, later) => Some (b :: seen, later)
           | None => None
           end
      else Some ([b], rest)
  end.

Definition wait_while_icg (level : bool) : M unit :=
  fun w => match poll_while level (icg_levels w) with
           | None => None
           | Some (seen, later) =>
               Some (tt, set_trace (trace w ++ map EvIcg seen) (set_icg_levels later w))
           end.

(** [adc_capture(adc_samples, count)] *)
Definition adc_capture (count : nat) : M unit :=
  adc_run true ;;
  for_upto count (fun i =>
    v <- adc_fifo_get_blocking ;;
    fun w => Some (tt, set_adc_samples (<[i := v]> (adc_samples w)) w)) ;;
  adc_run false ;;
  adc_fifo_drain.

(** ** Command interpreter *)

Definition read_samples : M (list Z) := fun w => Some (adc_samples w, w).
Definition read_override_led : M Z := fun w => Some (override_led w, w).
Definition read_fp_contract : M bool := fun w => Some (fp_contract w, w).
Definition write_override_led (v : Z) : M unit :=
  fun w => Some (tt, set_override_led v w).
Definition write_msg_bytes (v : list Z) : M unit :=
  fun w => Some (tt, set_msg_bytes v w).

Definition line (s : list ascii) : list ascii := s ++ [NL].

Section Firmware.
(** The [%g] conversion of [printf], applied to [mean] and [stddev]. *)
Variable fmt_g : float -> list ascii.

Definition case_v : M unit :=
  printf (line (chars "v " ++ chars VERSION_STR)).

Definition case_L (args : list ascii) : M unit :=
  match strtok args with
  | Some (token, _) =>
      let i := to_uint8 (Z.land (atoi token) 1) in
      gpio_put_led (negb (i =? 0)) ;;
      write_override_led i ;;
      printf (line (chars "L " ++ decimal i))
  | None =>
      printf (line (chars "L error: no value"))
  end.

Definition case_a : M unit :=
  adc_raw <- adc_read ;;
  printf (line (chars "a " ++ decimal adc_raw)).

Definition case_b : M unit :=
  wait_while_icg true ;;
  wait_while_icg false ;;
  start <- time_us_32 ;;
  adc_capture N_SAMPLES ;;
  now <- time_us_32 ;;
  let time_taken := to_uint32 (now - start) in
  samples <- read_samples ;;
  fused <- read_fp_contract ;;
  let mean := batch_mean samples in
  let stddev := batch_stddev fused samples mean in
  printf (line (chars "b " ++ fmt_g mean ++ chars " " ++ fmt_g stddev
                ++ chars " " ++ decimal time_taken)).

Definition case_r : M unit :=
  for_upto N_SAMPLES (fun j =>
    samples <- read_samples ;;
    printf (line (decimal (nth j samples 0)))).

Definition case_q : M unit :=
  for_upto (N_SAMPLES / 20) (fun j =>
    for_upto 20 (fun k =>
      samples <- read_samples ;;
      let val := nth (j * 20 + k) samples 0 in
      printf (packed_pair val)) ;;
    printf [NL]).

Definition case_p (args : list ascii) : M unit :=
  match strtok args with
  | Some (token, after) =>
      let us_SH := to_uint16 (atoi token) in
      match strtok after with
      | Some (token2, _) =>
          let us_ICG := to_uint16 (atoi token2) in
          let msg :=
            [ to_uint8 (Z.shiftr (Z.land us_SH 0xff00) 8);
              to_uint8 (Z.land us_SH 0x00ff);
              to_uint8 (Z.shiftr (Z.land us_ICG 0xff00) 8);
              to_uint8 (Z.land us_ICG 0x00ff) ] in
          write_msg_bytes msg ;;
          let addr := 0x51 in
          nresult <- i2c_write_blocking addr msg ;;
          if negb (nresult =? 4)
          then printf (line (chars "p error: unsuccessful I2C communication"))
          else printf (line (chars "p " ++ decimal us_SH ++ chars " " ++ decimal us_ICG))
      | None =>
          printf (line (chars "p error: no value for us_ICG"))
      end
  | None =>
      printf (line (chars "p error: no value for us_SH (nor us_ICG)"))
  end.

Definition case_default (code : ascii) : M unit :=
  printf (line (code :: chars " error: Unknown command")).

(** [switch (cmdStr[0])] *)
Definition switch_on (code : ascii) (args : list ascii) : M unit :=
  if char_is code "v"%char then case_v
  else if char_is code "L"%char then case_L args
  else if char_is code "a"%char then case_a
  else if char_is code "b"%char then case_b
  else if char_is code "r"%char then case_r
  else if char_is code "q"%char then case_q
  else if char_is code "p"%char then case_p args
  else case_default code.

(** [interpret_command(cmdStr)]; [code] is [cmdStr[0]] and [args] is the
    string at [&cmdStr[1]]. *)
Definition interpret_command (cmdStr : list ascii) : M unit :=
  let code := hd NUL cmdStr in
  let args := tl cmdStr in
  ov <- read_override_led ;;
  when (ov =? 0) (gpio_put_led true) ;;
  switch_on code args ;;
  ov <- read_override_led ;;
  when (ov =? 0) (gpio_put_led false).

(** The first [iterations] rounds of the [while (1)] loop of [main]. *)
Fixpoint main_loop (iterations : nat) : M unit :=
  match iterations with
  | O => ret tt
  | S k =>
      m <- getstr NBUFA ;;
      (if m >? 0
       then fun w => interpret_command (cstring (bufA w)) w
       else ret tt) ;;
      main_loop k
  end.

(** Commands interpreted one after the other. *)
Fixpoint run_commands (cmds : list (list ascii)) : M unit :=
  match cmds with
  | [] => ret tt
  | cmdStr :: rest => interpret_command cmdStr ;; run_commands rest
  end.
End Firmware.

(** The world when [main] enters its loop: zero-initialised globals, the
    LED pin just initialised (low), nothing printed yet. *)
Definition power_on (input : list ascii) (icg : list bool)
    (fifo conv clock acks : list Z) : World :=
  mkWorld 0 (repeat 0 4) (repeat 0 N_SAMPLES) (repeat NUL (Z.to_nat NBUFA))
    input icg fifo conv clock acks [] false [] false.

(** A bench session, used to run the model: the world after power-on with
    a ramp in the buffer, the input lines [p] and [v], an ICG signal that
    falls and rises, a constant analog level, and a bus that acknowledges
    the first write. *)
Definition bench_world : World :=
  set_adc_samples (map Z.of_nat (seq 0 N_SAMPLES))
    (power_on (chars "p" ++ NL :: chars "v" ++ [NL]) [true; false; false; true]
       (repeat 7 N_SAMPLES) [1234] [100; 8100] [4; 3]).

(** The same bench with a line buffer of four characters and a line that
    overruns it, with backspaces and a carriage return. *)
Definition short_buffer_world : World :=
  set_bufA (repeat NUL 4)
    (set_stdin (chars "abcdef" ++ [BS; BS; BS; BS; BS; CR; NL]) bench_world).

(** A batch of readings around 100 with the sample variance 4, and the
    bench with this batch waiting in the converter's queue and a build
    that fuses the multiplication with the addition. *)
Definition noisy_batch : list Z :=
  repeat 103 844 ++ repeat 97 844 ++ repeat 101 2 ++ repeat 99 2 ++ repeat 100 2108.

Definition fused_bench_world : World :=
  set_fp_contract true (set_adc_fifo noisy_batch bench_world).

(** A [%g] conversion that prints nothing. *)
Definition no_format : float -> list ascii := fun _ => [].

(** ** Vocabulary of the statistics *)

(** [p] shifted left by [k] bits. *)
Fixpoint shl (k : nat) (p : positive) : positive :=
  match k with
  | O => p
  | S k' => xO (shl k' p)
  end.

(** Structural equality of floating-point data. *)
Definition float_eqb (x y : float) : bool :=
  match x, y with
  | S754_zero a, S754_zero b => Bool.eqb a b
  | S754_infinity a, S754_infinity b => Bool.eqb a b
  | S754_nan, S754_nan => true
  | S754_finite s m e, S754_finite s' m' e' => Bool.eqb s s' && Pos.eqb m m' && Z.eqb e e'
  | _, _ => false
  end.

Definition sum_Z (l : list Z) : Z := fold_right Z.add 0 l.

(** The sum of the squared deviations of the samples from [m]. *)
Definition sum_sq (m : Z) (l : list Z) : Z :=
  sum_Z (map (fun v => (v - m) * (v - m)) l).

(** [x] is within [halfulps] half units in the last place of the square
    root of [v]; with one half unit, [x] is a number nearest to the root:
    [v] lies between the squares of the midpoints next to [x]. *)
Definition sqrt_within (halfulps : Z) (x : float) (v : Z) : bool :=
  match x with
  | S754_zero _ => v =? 0
  | S754_finite false m e =>
      let lo := 2 * Zpos m - halfulps in
      let hi := 2 * Zpos m + halfulps in
      let a := 2 ^ Z.max 0 (2 * e) in
      let b := 2 ^ Z.max 0 (- (2 * e)) in
      (0 <=? lo) && (lo * lo * a <=? 4 * v * b) && (4 * v * b <=? hi * hi * a)
  | _ => false
  end.

(** A reading of the 12-bit converter. *)
Definition adc_reading (v : Z) : Prop := 0 <= v < 4096.

(** The number [x] stands for is the fraction [num / den]. *)
Definition float_is_ratio (x : float) (num den : Z) : Prop :=
  match x with
  | S754_zero _ => num = 0
  | S754_finite false m e => e <= 0 /\ Zpos m * den = num * 2 ^ (- e)
  | _ => False
  end.

(** ** Vocabulary of the properties *)

(** What every iteration of the loop of [getstr] preserves. *)
Definition line_ok (nbuf : Z) (st : line_state) : Prop :=
  0 <= ls_i st <= nbuf - 1
  /\ length (ls_buf st) = Z.to_nat nbuf
  /\ Forall (fun j => 0 <= j < nbuf) (ls_writes st).

(** The activity indicator around a command. *)
Definition led_on (w : World) : World :=
  if override_led w =? 0 then log (EvLed true) (set_led true w) else w.
Definition led_off (w : World) : World :=
  if override_led w =? 0 then log (EvLed false) (set_led false w) else w.

(** Between commands the LED shows the override flag. *)
Definition led_idle (w : World) : Prop :=
  led w = negb (override_led w =? 0).

(** What holds of the world whenever [main] waits for a line. *)
Definition idle_world (w : World) : Prop :=
  led_idle w
  /\ length (adc_samples w) = N_SAMPLES
  /\ length (bufA w) = Z.to_nat NBUFA.

(** The text of the two reports over a buffer. *)
Definition decimal_report (samples : list Z) : list ascii :=
  flat_map (fun j => line (decimal (nth j samples 0))) (seq 0 N_SAMPLES).

Definition packed_line (samples : list Z) (j : nat) : list ascii :=
  flat_map (fun k => packed_pair (nth (j * 20 + k) samples 0)) (seq 0 20).

Definition packed_lines (samples : list Z) : list (list ascii) :=
  map (packed_line samples) (seq 0 (N_SAMPLES / 20)).

Definition packed_report (samples : list Z) : list ascii :=
  flat_map line (packed_lines samples).

(** The report a command code asks for. *)
Definition report_text (code : ascii) (samples : list Z) : list ascii :=
  if char_is code "r"%char then decimal_report samples else packed_report samples.

Definition is_report (cmdStr : list ascii) : Prop :=
  hd NUL cmdStr = "r"%char \/ hd NUL cmdStr = "q"%char.

(** Host side of the packed report: position of a symbol in the alphabet,
    and the values of a line of symbol pairs. *)
Fixpoint index_in (c : ascii) (l : list ascii) : Z :=
  match l with
  | [] => 0
  | d :: rest => if char_is c d then 0 else 1 + index_in c rest
  end.

Definition symbol_value (c : ascii) : Z := index_in c base64_alphabet.

Fixpoint decode_pairs (l : list ascii) : list Z :=
  match l with
  | hi :: lo :: rest => (symbol_value hi * 64 + symbol_value lo) :: decode_pairs rest
  | _ => []
  end.

(** Splitting printed text into its new-line terminated lines. *)
Fixpoint lines_from (cur : list ascii) (out : list ascii) : list (list ascii) :=
  match out with
  | [] => match cur with [] => [] | _ => [cur] end
  | c :: rest =>
      if char_is c NL then cur :: lines_from [] rest
      else lines_from (cur ++ [c]) rest
  end.

Definition lines_of (out : list ascii) : list (list ascii) := lines_from [] out.

(** The Period Message for two period values, and the two replies of a
    complete ['p'] command. *)
Definition period_message (us_SH us_ICG : Z) : list Z :=
  [us_SH / 256; us_SH mod 256; us_ICG / 256; us_ICG mod 256].

Definition period_reply (us_SH us_ICG nresult : Z) : list ascii :=
  if nresult =? 4
  then line (chars "p " ++ decimal us_SH ++ chars " " ++ decimal us_ICG)
  else line (chars "p error: unsuccessful I2C communication").

(** The reply to a ['p'] command that lacks a token, by the number of
    tokens present. *)
Definition missing_token_reply (args : list ascii) : option (list ascii) :=
  match strtok args with
  | None => Some (chars "p error: no value for us_SH (nor us_ICG)")
  | Some (_, after) =>
      match strtok after with
      | None => Some (chars "p error: no value for us_ICG")
      | Some _ => None
      end
  end.

(** A character [getstr] appends and that does not end a C string. *)
Definition plain_char (c : ascii) : Prop :=
  c <> NL /\ c <> CR /\ c <> BS /\ c <> NUL.

(** The indicator's LED write around a command, if the LED is not
    overridden. *)
Definition indicator (ov : Z) (level : bool) : list event :=
  if ov =? 0 then [EvLed level] else [].

(** The hardware interactions of a batch capture after the wait: timer,
    peripheral on, [N_SAMPLES] pulls, peripheral off, drain, timer. *)
Definition capture_events (t0 t1 : Z) (vals : list Z) : list event :=
  EvTime t0 :: EvAdcRun true :: map EvFifoGet vals
  ++ [EvAdcRun false; EvFifoDrain; EvTime t1].

(** The reply of case ['b']. *)
Definition batch_text (fmt_g : float -> list ascii) (fused : bool) (vals : list Z)
    (t0 t1 : Z) : list ascii :=
  let mean := batch_mean vals in
  fmt_g mean ++ chars " " ++ fmt_g (batch_stddev fused vals mean)
  ++ chars " " ++ decimal (to_uint32 (t1 - t0)).

Definition batch_reply (fmt_g : float -> list ascii) (fused : bool) (vals : list Z)
    (t0 t1 : Z) : list ascii :=
  line (chars "b " ++ batch_text fmt_g fused vals t0 t1).

(** The bus writes among the hardware interactions. *)
Definition bus_writes (tr : list event) : list (Z * list Z) :=
  flat_map (fun e => match e with
                     | EvI2cWrite addr payload _ => [(addr, payload)]
                     | _ => []
                     end) tr.

(** The ICG readings taken before the timer is first read. *)
Fixpoint polls_before_timer (tr : list event) : list bool :=
  match tr with
  | [] => []
  | EvTime _ :: _ => []
  | EvIcg b :: rest => b :: polls_before_timer rest
  | _ :: rest => polls_before_timer rest
  end.

(** Polling until the input reads [level]: readings of the other level,
    then one of [level]. *)
Definition polled_until (level : bool) (seen : list bool) : Prop :=
  exists n : nat, seen = repeat (negb level) n ++ [level].

(** ** Vocabulary of the further properties *)

(** The line a user has typed so far, as [getstr] edits it: a backspace
    removes the last character, a carriage return is skipped, any other
    character is appended while there is room for it and the terminator. *)
Definition edit_step (nbuf : Z) (typed : list ascii) (c : ascii) : list ascii :=
  if char_is c BS then removelast typed
  else if char_is c CR then typed
  else if Z.of_nat (length typed) <? nbuf - 1 then typed ++ [c]
  else typed.

Definition edit_line (nbuf : Z) (keys : list ascii) : list ascii :=
  fold_left (edit_step nbuf) keys [].

(** The buffer and the index of [getstr] hold the line [typed]. *)
Definition holds_line (nbuf : Z) (st : line_state) (typed : list ascii) : Prop :=
  ls_i st = Z.of_nat (length typed)
  /\ take (length typed) (ls_buf st) = typed
  /\ length (ls_buf st) = Z.to_nat nbuf
  /\ Z.of_nat (length typed) <= nbuf - 1.

(** Host side of the decimal report: reading a line back as an integer. *)
Definition parse_decimal (s : list ascii) : option Z :=
  option_map Z.of_int (NilZero.int_of_string (string_of_list_ascii s)).

(** A reply that says [error]. *)
Definition mentions_error (reply : list ascii) : Prop :=
  exists before after, reply = before ++ chars "error" ++ after.

(** * Properties *)

(** ** Line reader *)

Section GetstrBounds.
Variable nbuf : Z.
Hypothesis nbuf_pos : 1 <= nbuf.

Lemma store_char_ok c st :
  line_ok nbuf st -> line_ok nbuf (store_char c st).
Proof using nbuf_pos.
  intros (Hi & Hlen & Hw). unfold line_ok, store_char; simpl.
  split; [lia|]. split.
  - now rewrite length_insert.
  - apply Forall_app. split; [assumption|].
    constructor; [lia | constructor].
Qed.

Lemma store_char_lookup c st :
  line_ok nbuf st ->
  ls_buf (store_char c st) !! Z.to_nat (ls_i st) = Some c.
Proof using nbuf_pos.
  intros (Hi & Hlen & _). unfold store_char; simpl.
  apply list_lookup_insert_eq. lia.
Qed.

Lemma getstr_step_ok c st :
  line_ok nbuf st -> line_ok nbuf (fst (getstr_step nbuf c st)).
Proof using nbuf_pos.
  intros Hst. unfold getstr_step.
  set (st1 := if _ : bool then _ else st).
  assert (H1 : line_ok nbuf st1).
  { subst st1.
    destruct (negb (char_is c NL) && negb (char_is c CR)
              && negb (char_is c BS) && (ls_i st <? nbuf - 1)) eqn:E; [|assumption].
    apply andb_true_iff in E as [_ E]. apply Z.ltb_lt in E.
    destruct (store_char_ok c st Hst) as (Hi & Hlen & Hw).
    unfold line_ok; simpl in *. repeat split; try assumption; lia. }
  destruct (char_is c NL) eqn:En; simpl.
  - pose proof (store_char_ok NUL st1 H1) as H2.
    destruct (char_is c BS && (ls_i st1 >? 0)) eqn:Eb; [|assumption].
    apply andb_true_iff in Eb as [_ Eb]. apply Z.gtb_lt in Eb.
    destruct H2 as (Hi & Hlen & Hw). unfold line_ok; simpl in *.
    repeat split; try assumption; lia.
  - destruct (char_is c BS && (ls_i st1 >? 0)) eqn:Eb; [|assumption].
    apply andb_true_iff in Eb as [_ Eb]. apply Z.gtb_lt in Eb.
    destruct H1 as (Hi & Hlen & Hw). unfold line_ok; simpl in *.
    repeat split; try assumption; lia.
Qed.

(** The pass that sees the new-line stores the terminator at the index it
    returns, and that store is the last one. *)
Lemma getstr_step_done c st st' :
  line_ok nbuf st ->
  getstr_step nbuf c st = (st', true) ->
  ls_buf st' !! Z.to_nat (ls_i st') = Some NUL
  /\ last (ls_writes st') = Some (ls_i st').
Proof using nbuf_pos.
  intros Hst. unfold getstr_step.
  set (st1 := if _ : bool then _ else st).
  assert (H1 : line_ok nbuf st1).
  { subst st1.
    destruct (negb (char_is c NL) && negb (char_is c CR)
              && negb (char_is c BS) && (ls_i st <? nbuf - 1)) eqn:E; [|assumption].
    apply andb_true_iff in E as [_ E]. apply Z.ltb_lt in E.
    destruct (store_char_ok c st Hst) as (Hi & Hlen & Hw).
    unfold line_ok; simpl in *. repeat split; try assumption; lia. }
  destruct (char_is c NL) eqn:En; simpl.
  - assert (Hb : char_is c BS = false).
    { unfold char_is in *. apply Ascii.eqb_eq in En. subst c. reflexivity. }
    rewrite Hb; simpl. intros [= <-]. split.
    + change (ls_i (store_char NUL st1)) with (ls_i st1).
      apply store_char_lookup; assumption.
    + unfold store_char; simpl. apply last_snoc.
  - destruct (char_is c BS && (ls_i st1 >? 0)); intros [= _ ?]; discriminate.
Qed.

Lemma getstr_loop_ok input :
  In NL input ->
  forall st, line_ok nbuf st ->
  exists st' rest,
    getstr_loop nbuf input st = Some (st', rest)
    /\ line_ok nbuf st'
    /\ ls_buf st' !! Z.to_nat (ls_i st') = Some NUL
    /\ last (ls_writes st') = Some (ls_i st').
Proof using nbuf_pos.
  induction input as [|c rest IH]; intros Hin st Hst; [destruct Hin|].
  simpl. destruct (getstr_step nbuf c st) as [st' done] eqn:Es.
  pose proof (getstr_step_ok c st Hst) as Hst'. rewrite Es in Hst'; simpl in Hst'.
  destruct done.
  - exists st', rest. split; [reflexivity|]. split; [assumption|].
    exact (getstr_step_done c st st' Hst Es).
  - destruct Hin as [-> | Hin].
    + exfalso. unfold getstr_step in Es.
      change (char_is NL NL) with true in Es.
      simpl in Es. discriminate.
    + apply IH; assumption.
Qed.
Lemma getstr_loop_keeps input :
  forall st st' rest,
    line_ok nbuf st ->
    getstr_loop nbuf input st = Some (st', rest) ->
    line_ok nbuf st'.
Proof using nbuf_pos.
  induction input as [|c input IH]; intros st st' rest Hst; [discriminate|].
  cbn [getstr_loop]. destruct (getstr_step nbuf c st) as [st1 done] eqn:Es.
  pose proof (getstr_step_ok c st Hst) as Hst1. rewrite Es in Hst1; cbn [fst] in Hst1.
  destruct done.
  - now intros [= <- _].
  - now apply IH.
Qed.
End GetstrBounds.

(** C9. For every input that contains a new-line and every capacity
    [nbuf >= 1], [getstr] returns: its result [R] satisfies
    [0 <= R <= nbuf - 1], the terminator is at [buf[R]] (and is the last
    store), and every index the loop stored to lies in [0 .. nbuf - 1],
    whatever characters and backspaces come before the new-line. *)
Theorem getstr_terminates_within_bounds :
  forall (nbuf : Z) (w : World),
    1 <= nbuf ->
    length (bufA w) = Z.to_nat nbuf ->
    In NL (stdin w) ->
    exists st rest,
      getstr_run nbuf (stdin w) (bufA w) = Some (st, rest)
      /\ getstr nbuf w = Some (ls_i st, set_stdin rest (set_bufA (ls_buf st) w))
      /\ 0 <= ls_i st <= nbuf - 1
      /\ ls_buf st !! Z.to_nat (ls_i st) = Some NUL
      /\ last (ls_writes st) = Some (ls_i st)
      /\ Forall (fun j => 0 <= j < nbuf) (ls_writes st)
      /\ length (ls_buf st) = Z.to_nat nbuf.
Proof.
  intros nbuf w Hn Hlen Hin.
  destruct (getstr_loop_ok nbuf Hn (stdin w) Hin (mkLine (bufA w) 0 []))
    as (st & rest & Hrun & (Hi & Hl & Hw) & Hnul & Hlast).
  { unfold line_ok; simpl. repeat split; try lia; try assumption. constructor. }
  exists st, rest. unfold getstr, getstr_run. rewrite Hrun.
  repeat split; try assumption; lia.
Qed.

(** ** Running commands *)

(** Reading a field of an updated world. *)
Ltac world_fields :=
  cbn [log set_override_led set_msg_bytes set_adc_samples set_bufA set_stdin
       set_icg_levels set_adc_fifo set_adc_conv set_timer set_i2c_acks set_stdout
       set_led set_trace set_fp_contract
       override_led msg_bytes adc_samples bufA stdin icg_levels adc_fifo adc_conv
       timer i2c_acks stdout led trace fp_contract].

Lemma world_ext (w1 w2 : World) :
  override_led w1 = override_led w2 -> msg_bytes w1 = msg_bytes w2 ->
  adc_samples w1 = adc_samples w2 -> bufA w1 = bufA w2 -> stdin w1 = stdin w2 ->
  icg_levels w1 = icg_levels w2 -> adc_fifo w1 = adc_fifo w2 ->
  adc_conv w1 = adc_conv w2 -> timer w1 = timer w2 -> i2c_acks w1 = i2c_acks w2 ->
  stdout w1 = stdout w2 -> led w1 = led w2 -> trace w1 = trace w2 ->
  fp_contract w1 = fp_contract w2 ->
  w1 = w2.
Proof. destruct w1, w2; cbn; intros; subst; reflexivity. Qed.

Ltac world_fields_in H :=
  cbn [log set_override_led set_msg_bytes set_adc_samples set_bufA set_stdin
       set_icg_levels set_adc_fifo set_adc_conv set_timer set_i2c_acks set_stdout
       set_led set_trace set_fp_contract
       override_led msg_bytes adc_samples bufA stdin icg_levels adc_fifo adc_conv
       timer i2c_acks stdout led trace fp_contract] in H.

(** Equality of two worlds, field by field. *)
Ltac world_eq :=
  apply world_ext; world_fields; rewrite <- ?app_assoc; try reflexivity.

Lemma set_stdout_stdout w : set_stdout (stdout w) w = w.
Proof. destruct w; reflexivity. Qed.

Lemma set_stdout_twice a b w : set_stdout b (set_stdout a w) = set_stdout b w.
Proof. reflexivity. Qed.

(** A loop whose body only prints text computed from the sample buffer
    prints the texts of its rounds in order. *)
Lemma for_from_prints (body : nat -> M unit) (text : nat -> list Z -> list ascii) :
  (forall j w, body j w = Some (tt, set_stdout (stdout w ++ text j (adc_samples w)) w)) ->
  forall count start w,
    for_from start count body w
    = Some (tt, set_stdout
                  (stdout w ++ flat_map (fun j => text j (adc_samples w)) (seq start count)) w).
Proof.
  intros Hbody. induction count as [|count IH]; intros start w; simpl.
  - unfold ret. now rewrite app_nil_r, set_stdout_stdout.
  - unfold bind. rewrite Hbody, IH. simpl.
    now rewrite set_stdout_twice, <- app_assoc.
Qed.

Lemma flat_map_map {A B C} (f : B -> list C) (g : A -> B) (l : list A) :
  flat_map f (map g l) = flat_map (fun x => f (g x)) l.
Proof. induction l as [|x l IH]; simpl; [reflexivity | now rewrite IH]. Qed.

(** The indicator touches only the LED and the record of interactions. *)
Lemma led_on_frame w :
  stdout (led_on w) = stdout w /\ adc_samples (led_on w) = adc_samples w
  /\ override_led (led_on w) = override_led w /\ i2c_acks (led_on w) = i2c_acks w
  /\ adc_conv (led_on w) = adc_conv w /\ msg_bytes (led_on w) = msg_bytes w.
Proof. unfold led_on. destruct (override_led w =? 0); repeat split. Qed.

Lemma led_off_frame w :
  stdout (led_off w) = stdout w /\ adc_samples (led_off w) = adc_samples w
  /\ override_led (led_off w) = override_led w /\ i2c_acks (led_off w) = i2c_acks w
  /\ adc_conv (led_off w) = adc_conv w /\ msg_bytes (led_off w) = msg_bytes w.
Proof. unfold led_off. destruct (override_led w =? 0); repeat split. Qed.

Section Running.
Variable fmt_g : float -> list ascii.

Lemma interpret_command_eq cmdStr w :
  interpret_command fmt_g cmdStr w
  = match switch_on fmt_g (hd NUL cmdStr) (tl cmdStr) (led_on w) with
    | Some (_, w1) => Some (tt, led_off w1)
    | None => None
    end.
Proof.
  unfold interpret_command, led_on, led_off, bind, read_override_led, when.
  destruct (override_led w =? 0); simpl;
    destruct (switch_on fmt_g (hd NUL cmdStr) (tl cmdStr) _) as [[[] w1]|];
    try reflexivity; destruct (override_led w1 =? 0); reflexivity.
Qed.

Lemma case_r_run w :
  case_r w = Some (tt, set_stdout (stdout w ++ decimal_report (adc_samples w)) w).
Proof.
  unfold case_r, for_upto, decimal_report.
  now rewrite (for_from_prints _ (fun j samples => line (decimal (nth j samples 0)))).
Qed.

Lemma case_q_run w :
  case_q w = Some (tt, set_stdout (stdout w ++ packed_report (adc_samples w)) w).
Proof.
  unfold case_q, for_upto, packed_report, packed_lines.
  rewrite (for_from_prints _ (fun j samples => line (packed_line samples j))).
  - now rewrite flat_map_map.
  - intros j w0. unfold bind.
    rewrite (for_from_prints _ (fun k samples => packed_pair (nth (j * 20 + k) samples 0)))
      by reflexivity.
    unfold printf, line, packed_line; simpl. now rewrite <- app_assoc.
Qed.
End Running.

(** ** Packed report *)

Lemma land_low_bits val :
  Z.land val 0x0FFF = val mod 4096 /\ Z.land val 0x003F = val mod 64.
Proof.
  split.
  - change 0x0FFF with (Z.ones 12). now rewrite Z.land_ones by lia.
  - change 0x003F with (Z.ones 6). now rewrite Z.land_ones by lia.
Qed.

(** The two 6-bit fields of a sample. *)
Lemma packed_pair_fields val :
  packed_pair val = [alphabet_at (val mod 4096 / 64); alphabet_at (val mod 64)]
  /\ 0 <= val mod 4096 / 64 < 64
  /\ 0 <= val mod 64 < 64
  /\ val mod 4096 / 64 * 64 + val mod 64 = val mod 4096.
Proof.
  destruct (land_low_bits val) as [Hhi Hlo].
  unfold packed_pair. rewrite Hhi, Hlo, Z.shiftr_div_pow2 by lia.
  change (2 ^ 6) with 64. repeat split; Z.div_mod_to_equations; lia.
Qed.

Lemma alphabet_symbols (i : Z) :
  0 <= i < 64 ->
  In (alphabet_at i) base64_alphabet
  /\ symbol_value (alphabet_at i) = i
  /\ alphabet_at i <> NL.
Proof.
  intros Hi.
  assert (Hall : forallb (fun n =>
            let c := alphabet_at (Z.of_nat n) in
            existsb (char_is c) base64_alphabet
            && (symbol_value c =? Z.of_nat n) && negb (char_is c NL))
          (seq 0 64) = true) by reflexivity.
  rewrite forallb_forall in Hall.
  specialize (Hall (Z.to_nat i)). rewrite Z2Nat.id in Hall by lia.
  assert (Hin : In (Z.to_nat i) (seq 0 64)) by (apply in_seq; lia).
  apply Hall in Hin. cbv zeta in Hin.
  apply andb_true_iff in Hin as [Hin Hnl].
  apply andb_true_iff in Hin as [Hin Hval].
  split; [|split].
  - apply existsb_exists in Hin as (d & Hd & Heq).
    apply Ascii.eqb_eq in Heq. now subst d.
  - now apply Z.eqb_eq.
  - intros Heq. rewrite Heq in Hnl. discriminate.
Qed.

Lemma decode_packed_pair val rest :
  decode_pairs (packed_pair val ++ rest) = val mod 4096 :: decode_pairs rest.
Proof.
  destruct (packed_pair_fields val) as (-> & Hhi & Hlo & Hsum).
  simpl. f_equal.
  destruct (alphabet_symbols _ Hhi) as (_ & -> & _).
  destruct (alphabet_symbols _ Hlo) as (_ & -> & _).
  exact Hsum.
Qed.

Lemma decode_pairs_flat_map {A} (val : A -> Z) (l : list A) :
  decode_pairs (flat_map (fun x => packed_pair (val x)) l)
  = map (fun x => val x mod 4096) l.
Proof.
  induction l as [|x l IH]; [reflexivity|].
  cbn [flat_map map]. now rewrite decode_packed_pair, IH.
Qed.

Lemma packed_symbols {A} (val : A -> Z) (l : list A) :
  let text := flat_map (fun x => packed_pair (val x)) l in
  length text = (2 * length l)%nat
  /\ Forall (fun c => In c base64_alphabet /\ c <> NL) text.
Proof.
  induction l as [|x l [IHlen IHall]]; [split; [reflexivity | constructor]|].
  cbn zeta in *. cbn [flat_map].
  destruct (packed_pair_fields (val x)) as (-> & Hhi & Hlo & _).
  destruct (alphabet_symbols _ Hhi) as (Hin1 & _ & Hnl1).
  destruct (alphabet_symbols _ Hlo) as (Hin2 & _ & Hnl2).
  split.
  - cbn [app length]. rewrite IHlen. cbn [length]. lia.
  - cbn [app]. constructor; [split; assumption|].
    constructor; [split; assumption|]. exact IHall.
Qed.

Lemma map_seq_offset {B} (g : nat -> B) (m a : nat) :
  map (fun k => g (a + k)%nat) (seq 0 m) = map g (seq a m).
Proof.
  revert a. induction m as [|m IH]; intros a; [reflexivity|].
  cbn [seq map]. rewrite Nat.add_0_r. f_equal.
  rewrite <- seq_shift, map_map, <- IH.
  apply map_ext. intros k. f_equal. lia.
Qed.

(** Rows of [m] consecutive indices cover [0 .. n * m - 1] in order. *)
Lemma flat_map_rows {B} (g : nat -> B) (m n : nat) :
  flat_map (fun j => map (fun k => g (j * m + k)%nat) (seq 0 m)) (seq 0 n)
  = map g (seq 0 (n * m)).
Proof.
  induction n as [|n IH]; [reflexivity|].
  rewrite seq_S, flat_map_app, IH. cbn [flat_map]. rewrite app_nil_r.
  replace (S n * m)%nat with (n * m + m)%nat by lia.
  rewrite seq_app, map_app. f_equal. cbn [Nat.add].
  apply map_seq_offset.
Qed.

Lemma map_nth_seq {B} (f : Z -> B) (l : list Z) :
  map (fun i => f (nth i l 0)) (seq 0 (length l)) = map f l.
Proof.
  induction l as [|x l IH]; [reflexivity|].
  cbn [length seq map]. f_equal.
  rewrite <- seq_shift, map_map. exact IH.
Qed.

(** Text made of lines without a new-line inside splits back into them. *)
Lemma lines_from_line (l : list ascii) :
  Forall (fun c => c <> NL) l ->
  forall cur rest,
    lines_from cur (line l ++ rest) = (cur ++ l) :: lines_from [] rest.
Proof.
  unfold line. induction 1 as [|c l Hc _ IH]; intros cur rest.
  - simpl. now rewrite app_nil_r.
  - cbn [app lines_from]. destruct (char_is c NL) eqn:E.
    + apply Ascii.eqb_eq in E. contradiction.
    + cbn [app] in IH. rewrite IH, <- app_assoc. reflexivity.
Qed.

Lemma lines_of_lines (ls : list (list ascii)) :
  Forall (Forall (fun c => c <> NL)) ls ->
  lines_of (flat_map line ls) = ls.
Proof.
  unfold lines_of. induction 1 as [|l ls Hl _ IH]; [reflexivity|].
  cbn [flat_map]. now rewrite lines_from_line, IH.
Qed.

Lemma concat_flat_map {A B} (F : A -> list (list B)) (l : list A) :
  concat (flat_map F l) = flat_map (fun x => concat (F x)) l.
Proof.
  induction l as [|x l IH]; [reflexivity|].
  cbn [flat_map]. now rewrite concat_app, IH.
Qed.

Lemma packed_lines_concat samples :
  length samples = N_SAMPLES ->
  concat (packed_lines samples) = flat_map packed_pair samples.
Proof.
  intros Hlen. unfold packed_lines, packed_line.
  rewrite <- flat_map_concat_map.
  rewrite (flat_map_ext _
             (fun j => concat (map (fun k => packed_pair (nth (j * 20 + k) samples 0))
                                   (seq 0 20))))
    by (intros j; apply flat_map_concat_map).
  rewrite <- concat_flat_map.
  rewrite (flat_map_rows (fun i => packed_pair (nth i samples 0)) 20 (N_SAMPLES / 20)).
  change (N_SAMPLES / 20 * 20)%nat with N_SAMPLES. rewrite <- Hlen.
  now rewrite (map_nth_seq packed_pair samples), <- flat_map_concat_map.
Qed.

Lemma packed_lines_decode samples :
  length samples = N_SAMPLES ->
  flat_map decode_pairs (packed_lines samples) = map (fun v => v mod 4096) samples.
Proof.
  intros Hlen. unfold packed_lines, packed_line.
  rewrite flat_map_map.
  rewrite (flat_map_ext _ (fun j => map (fun k => nth (j * 20 + k) samples 0 mod 4096)
                                      (seq 0 20)))
    by (intros j; apply decode_pairs_flat_map).
  rewrite (flat_map_rows (fun i => nth i samples 0 mod 4096) 20 (N_SAMPLES / 20)).
  change (N_SAMPLES / 20 * 20)%nat with N_SAMPLES. rewrite <- Hlen.
  exact (map_nth_seq (fun v => v mod 4096) samples).
Qed.

Lemma packed_lines_shape samples :
  length (packed_lines samples) = (N_SAMPLES / 20)%nat
  /\ Forall (fun l => length l = 40%nat
                     /\ Forall (fun c => In c base64_alphabet /\ c <> NL) l)
            (packed_lines samples).
Proof.
  unfold packed_lines. split.
  - now rewrite length_map, length_seq.
  - apply Forall_map, Forall_forall. intros j _. unfold packed_line.
    exact (packed_symbols (fun k => nth (j * 20 + k) samples 0) (seq 0 20)).
Qed.

(** C1. On a buffer of [N_SAMPLES] samples the ['q'] command prints
    [N_SAMPLES / 20] lines of 40 characters, all from the 64-symbol
    alphabet; the characters are, sample after sample, the symbol of bits
    6-11 and then the symbol of bits 0-5, and decoding the pairs of every
    line gives back [sample mod 4096] for every sample, in buffer order. *)
Theorem packed_report_roundtrip :
  forall (fmt_g : float -> list ascii) (args : list ascii) (w : World),
    length (adc_samples w) = N_SAMPLES ->
    exists w' lines,
      interpret_command fmt_g ("q"%char :: args) w = Some (tt, w')
      /\ stdout w' = stdout w ++ flat_map line lines
      /\ lines_of (flat_map line lines) = lines
      /\ length lines = (N_SAMPLES / 20)%nat
      /\ Forall (fun l => length l = 40%nat
                         /\ Forall (fun c => In c base64_alphabet) l) lines
      /\ concat lines
         = flat_map (fun v => [alphabet_at (v mod 4096 / 64); alphabet_at (v mod 64)])
             (adc_samples w)
      /\ flat_map decode_pairs lines = map (fun v => v mod 4096) (adc_samples w).
Proof.
  intros fmt_g args w Hlen.
  destruct (packed_lines_shape (adc_samples w)) as [Hcount Hshape].
  exists (led_off (set_stdout (stdout (led_on w) ++ packed_report (adc_samples (led_on w)))
                     (led_on w))),
         (packed_lines (adc_samples w)).
  destruct (led_on_frame w) as (Hout & Hsamples & _).
  split; [|split; [|split; [|split; [|split; [|split]]]]].
  - rewrite interpret_command_eq. cbn [hd tl]. unfold switch_on.
    change (char_is "q" "v") with false. change (char_is "q" "L") with false.
    change (char_is "q" "a") with false. change (char_is "q" "b") with false.
    change (char_is "q" "r") with false. change (char_is "q" "q") with true.
    cbv iota. now rewrite case_q_run.
  - destruct (led_off_frame (set_stdout (stdout (led_on w) ++ packed_report (adc_samples (led_on w)))
                     (led_on w))) as (-> & _).
    cbn [stdout set_stdout]. now rewrite Hout, Hsamples.
  - apply lines_of_lines. eapply Forall_impl; [exact Hshape|].
    intros l [_ Hl]. eapply Forall_impl; [exact Hl|]. now intros c [_ Hc].
  - exact Hcount.
  - eapply Forall_impl; [exact Hshape|].
    intros l [Hl40 Hl]. split; [exact Hl40|].
    eapply Forall_impl; [exact Hl|]. now intros c [Hc _].
  - rewrite packed_lines_concat by exact Hlen.
    apply flat_map_ext. intros v. now destruct (packed_pair_fields v) as (-> & _).
  - now apply packed_lines_decode.
Qed.

(** ** Reports only read the buffer *)

Section Reports.
Variable fmt_g : float -> list ascii.

Lemma report_run cmdStr w :
  is_report cmdStr ->
  interpret_command fmt_g cmdStr w
  = Some (tt, led_off (set_stdout
                         (stdout w ++ report_text (hd NUL cmdStr) (adc_samples w))
                         (led_on w))).
Proof.
  intros Hcode. rewrite interpret_command_eq.
  destruct (led_on_frame w) as (Hout & Hsamples & _).
  unfold switch_on, report_text.
  destruct Hcode as [-> | ->].
  - change (char_is "r" "v") with false. change (char_is "r" "L") with false.
    change (char_is "r" "a") with false. change (char_is "r" "b") with false.
    change (char_is "r" "r") with true.
    cbv iota. now rewrite case_r_run, Hout, Hsamples.
  - change (char_is "q" "v") with false. change (char_is "q" "L") with false.
    change (char_is "q" "a") with false. change (char_is "q" "b") with false.
    change (char_is "q" "r") with false. change (char_is "q" "q") with true.
    cbv iota. now rewrite case_q_run, Hout, Hsamples.
Qed.
End Reports.

(** C8. Whatever the buffer holds, any sequence of ['r'] and ['q'] commands
    runs to completion, leaves every element of the buffer as it was, and
    prints for each command the report of that same buffer: the same text
    every time the command is repeated. *)
Theorem reports_are_repeatable :
  forall (fmt_g : float -> list ascii) (cmds : list (list ascii)) (w : World),
    Forall is_report cmds ->
    exists w',
      run_commands fmt_g cmds w = Some (tt, w')
      /\ adc_samples w' = adc_samples w
      /\ stdout w'
         = stdout w ++ flat_map (fun c => report_text (hd NUL c) (adc_samples w)) cmds.
Proof.
  intros fmt_g cmds w Hcmds. revert w.
  induction Hcmds as [|c cmds Hc _ IH]; intros w.
  - exists w. cbn. now rewrite app_nil_r.
  - cbn [run_commands]. unfold bind. rewrite report_run by exact Hc.
    set (w1 := led_off _).
    assert (Hs : adc_samples w1 = adc_samples w).
    { subst w1. destruct (led_off_frame (set_stdout
                           (stdout w ++ report_text (hd NUL c) (adc_samples w))
                           (led_on w))) as (_ & -> & _).
      cbn [adc_samples set_stdout]. now destruct (led_on_frame w) as (_ & -> & _). }
    assert (Ho : stdout w1 = stdout w ++ report_text (hd NUL c) (adc_samples w)).
    { subst w1. now destruct (led_off_frame (set_stdout
                           (stdout w ++ report_text (hd NUL c) (adc_samples w))
                           (led_on w))) as (-> & _). }
    destruct (IH w1) as (w' & Hrun & Hsamples & Hout).
    exists w'. split; [exact Hrun|]. split; [congruence|].
    rewrite Hout, Ho, Hs. cbn [flat_map]. symmetry. apply app_assoc.
Qed.

(** ** Single-line commands *)

Lemma land_lsb v : to_uint8 (Z.land v 1) = v mod 2.
Proof.
  unfold to_uint8. change 1 with (Z.ones 1). rewrite Z.land_ones by lia.
  change (2 ^ 1) with 2. change (2 ^ 8) with 256.
  Z.div_mod_to_equations; lia.
Qed.

(** Big-endian halves of a 16-bit value, as the code masks and shifts them. *)
Lemma period_bytes u :
  0 <= u < 2 ^ 16 ->
  to_uint8 (Z.shiftr (Z.land u 0xff00) 8) = u / 256
  /\ to_uint8 (Z.land u 0x00ff) = u mod 256.
Proof.
  intros Hu. unfold to_uint8. split.
  - rewrite Z.shiftr_land. change (Z.shiftr 0xff00 8) with (Z.ones 8).
    rewrite Z.land_ones, Z.shiftr_div_pow2 by lia.
    change (2 ^ 8) with 256. change (2 ^ 16) with 65536 in Hu.
    Z.div_mod_to_equations; lia.
  - change 0x00ff with (Z.ones 8). rewrite Z.land_ones by lia.
    change (2 ^ 8) with 256. Z.div_mod_to_equations; lia.
Qed.

Lemma bus_writes_app tr1 tr2 :
  bus_writes (tr1 ++ tr2) = bus_writes tr1 ++ bus_writes tr2.
Proof. apply flat_map_app. Qed.

Lemma led_on_bus w : bus_writes (trace (led_on w)) = bus_writes (trace w).
Proof.
  unfold led_on. destruct (override_led w =? 0); [|reflexivity].
  cbn [trace log set_trace set_led]. rewrite bus_writes_app. apply app_nil_r.
Qed.

Lemma led_off_bus w : bus_writes (trace (led_off w)) = bus_writes (trace w).
Proof.
  unfold led_off. destruct (override_led w =? 0); [|reflexivity].
  cbn [trace log set_trace set_led]. rewrite bus_writes_app. apply app_nil_r.
Qed.

Section SingleLine.
Variable fmt_g : float -> list ascii.

Lemma switch_on_L args : switch_on fmt_g "L" args = case_L args.
Proof. reflexivity. Qed.
Lemma switch_on_b args : switch_on fmt_g "b" args = case_b fmt_g.
Proof. reflexivity. Qed.
Lemma switch_on_p args : switch_on fmt_g "p" args = case_p args.
Proof. reflexivity. Qed.

Lemma case_p_two_tokens args token after token2 after2 nresult acks w :
  strtok args = Some (token, after) ->
  strtok after = Some (token2, after2) ->
  i2c_acks w = nresult :: acks ->
  let us_SH := to_uint16 (atoi token) in
  let us_ICG := to_uint16 (atoi token2) in
  let msg := period_message us_SH us_ICG in
  case_p args w
  = Some (tt, set_stdout (stdout w ++ period_reply us_SH us_ICG nresult)
                (log (EvI2cWrite 0x51 msg nresult)
                   (set_i2c_acks acks (set_msg_bytes msg w)))).
Proof.
  intros Ht1 Ht2 Hacks us_SH us_ICG msg.
  unfold case_p. rewrite Ht1, Ht2. fold us_SH us_ICG.
  assert (Hsh : 0 <= us_SH < 2 ^ 16) by (apply Z.mod_pos_bound; lia).
  assert (Hicg : 0 <= us_ICG < 2 ^ 16) by (apply Z.mod_pos_bound; lia).
  destruct (period_bytes us_SH Hsh) as [-> ->].
  destruct (period_bytes us_ICG Hicg) as [-> ->].
  fold (period_message us_SH us_ICG). fold msg.
  unfold bind, write_msg_bytes, i2c_write_blocking.
  cbn [i2c_acks set_msg_bytes]. rewrite Hacks.
  unfold period_reply. destruct (nresult =? 4); reflexivity.
Qed.

Lemma case_p_missing args w :
  forall text,
    missing_token_reply args = Some text ->
    case_p args w = Some (tt, set_stdout (stdout w ++ line text) w).
Proof.
  intros text. unfold case_p, missing_token_reply.
  destruct (strtok args) as [[token after]|].
  - destruct (strtok after) as [[token2 after2]|]; [discriminate|].
    now intros [= <-].
  - now intros [= <-].
Qed.
End SingleLine.

(** ** From the input line to the command *)

Lemma insert_after_prefix {A} (pre : list A) (x y : A) (tail : list A) :
  <[length pre := y]> (pre ++ x :: tail) = pre ++ y :: tail.
Proof. induction pre as [|p pre IH]; [reflexivity|]. simpl. f_equal. exact IH. Qed.

Lemma cstring_terminated (l tail : list ascii) :
  Forall plain_char l -> cstring (l ++ NUL :: tail) = l.
Proof.
  induction 1 as [|c l (_ & _ & _ & Hc) _ IH]; [reflexivity|].
  cbn [app cstring]. destruct (char_is c NUL) eqn:E.
  - apply Ascii.eqb_eq in E. contradiction.
  - now rewrite IH.
Qed.

Lemma getstr_step_plain nbuf c st :
  plain_char c -> ls_i st < nbuf - 1 ->
  getstr_step nbuf c st
  = (mkLine (<[Z.to_nat (ls_i st) := c]> (ls_buf st)) (ls_i st + 1)
       (ls_writes st ++ [ls_i st]), false).
Proof.
  intros (Hnl & Hcr & Hbs & _) Hi. unfold getstr_step, char_is.
  apply Ascii.eqb_neq in Hnl, Hcr, Hbs. rewrite Hnl, Hcr, Hbs.
  apply Z.ltb_lt in Hi. rewrite Hi. reflexivity.
Qed.

Lemma getstr_step_newline nbuf st :
  getstr_step nbuf NL st = (store_char NUL st, true).
Proof. reflexivity. Qed.

(** A line of plain characters that fits is stored as it is, terminated,
    and its length is returned. *)
Lemma getstr_loop_plain nbuf (l : list ascii) :
  Forall plain_char l ->
  forall pre tail ws rest,
    Z.of_nat (length pre + length l) <= nbuf - 1 ->
    (length l < length tail)%nat ->
    exists ws',
      getstr_loop nbuf (l ++ NL :: rest) (mkLine (pre ++ tail) (Z.of_nat (length pre)) ws)
      = Some (mkLine (pre ++ l ++ NUL :: drop (S (length l)) tail)
                (Z.of_nat (length pre + length l)) ws', rest).
Proof.
  induction 1 as [|c l Hc _ IH]; intros pre tail ws rest Hfit Htail.
  - destruct tail as [|x tail]; [cbn in Htail; lia|].
    cbn [app getstr_loop]. rewrite getstr_step_newline.
    unfold store_char. cbn [ls_i ls_buf ls_writes].
    rewrite Nat2Z.id, insert_after_prefix, Nat.add_0_r.
    eexists. reflexivity.
  - destruct tail as [|x tail]; [cbn in Htail; lia|].
    cbn [length] in Hfit, Htail.
    cbn [app getstr_loop]. rewrite getstr_step_plain by (cbn [ls_i]; try assumption; lia).
    cbn [ls_i ls_buf ls_writes].
    rewrite Nat2Z.id, insert_after_prefix.
    destruct (IH (pre ++ [c]) tail (ws ++ [Z.of_nat (length pre)]) rest) as (ws' & Hrun).
    { rewrite length_app. cbn [length]. lia. }
    { lia. }
    rewrite length_app in Hrun. cbn [length] in Hrun.
    rewrite <- !app_assoc in Hrun. cbn [app] in Hrun.
    replace (Z.of_nat (length pre) + 1) with (Z.of_nat (length pre + 1)) by lia.
    rewrite Hrun. exists ws'. cbn [length app drop].
    replace (length pre + S (length l))%nat with (length pre + 1 + length l)%nat by lia.
    reflexivity.
Qed.

Section MainLoop.
Variable fmt_g : float -> list ascii.

(** One round of the loop of [main] on a non-empty plain line that fits
    the buffer: the line is interpreted as it was typed, then the loop
    goes on with the rest of the input. *)
Lemma main_loop_round k cmdStr rest w :
  Forall plain_char cmdStr ->
  cmdStr <> [] ->
  Z.of_nat (length cmdStr) <= NBUFA - 1 ->
  length (bufA w) = Z.to_nat NBUFA ->
  stdin w = cmdStr ++ NL :: rest ->
  exists buf,
    main_loop fmt_g (S k) w
    = bind (interpret_command fmt_g cmdStr) (fun _ => main_loop fmt_g k)
        (set_stdin rest (set_bufA buf w)).
Proof.
  intros Hplain Hne Hfit Hbuf Hin.
  destruct (getstr_loop_plain NBUFA cmdStr Hplain [] (bufA w) [] rest) as (ws & Hrun).
  { cbn [length Nat.add]. exact Hfit. }
  { rewrite Hbuf. unfold NBUFA in *. lia. }
  cbn [app length Nat.add] in Hrun.
  exists (cmdStr ++ NUL :: drop (S (length cmdStr)) (bufA w)).
  cbn [main_loop]. unfold bind at 1 2. unfold getstr, getstr_run.
  rewrite Hin. change (Z.of_nat 0) with 0 in Hrun. rewrite Hrun.
  cbn [ls_i ls_buf].
  assert (Hpos : (Z.of_nat (length cmdStr) >? 0) = true).
  { destruct cmdStr; [contradiction|]. cbn [length]. apply Z.gtb_lt. lia. }
  rewrite Hpos. cbn [bufA set_stdin set_bufA].
  now rewrite cstring_terminated.
Qed.
End MainLoop.

(** ** The period command *)

Section Period.
Variable fmt_g : float -> list ascii.

Lemma period_missing_run args text w :
  missing_token_reply args = Some text ->
  exists w',
    interpret_command fmt_g ("p"%char :: args) w = Some (tt, w')
    /\ stdout w' = stdout w ++ line text
    /\ bus_writes (trace w') = bus_writes (trace w)
    /\ i2c_acks w' = i2c_acks w
    /\ msg_bytes w' = msg_bytes w
    /\ stdin w' = stdin w.
Proof.
  intros Hmiss. rewrite interpret_command_eq. cbn [hd tl].
  rewrite switch_on_p, (case_p_missing args (led_on w) text Hmiss).
  eexists. split; [reflexivity|].
  destruct (led_on_frame w) as (Hout & _ & _ & Hacks & _ & Hmsg).
  destruct (led_off_frame (set_stdout (stdout (led_on w) ++ line text) (led_on w)))
    as (-> & _ & _ & -> & _ & ->).
  rewrite led_off_bus. cbn [stdout trace i2c_acks msg_bytes set_stdout].
  rewrite led_on_bus, Hout, Hacks, Hmsg. repeat split.
  unfold led_off, led_on. cbn [override_led set_stdout].
  destruct (override_led w =? 0) eqn:E; cbn [override_led log set_trace set_led];
    rewrite ?E; reflexivity.
Qed.

Lemma period_run args token after token2 after2 nresult acks w :
  strtok args = Some (token, after) ->
  strtok after = Some (token2, after2) ->
  i2c_acks w = nresult :: acks ->
  let us_SH := to_uint16 (atoi token) in
  let us_ICG := to_uint16 (atoi token2) in
  exists w',
    interpret_command fmt_g ("p"%char :: args) w = Some (tt, w')
    /\ msg_bytes w' = period_message us_SH us_ICG
    /\ bus_writes (trace w')
       = bus_writes (trace w) ++ [(0x51, period_message us_SH us_ICG)]
    /\ i2c_acks w' = acks
    /\ stdout w' = stdout w ++ period_reply us_SH us_ICG nresult.
Proof.
  intros Ht1 Ht2 Hacks us_SH us_ICG.
  rewrite interpret_command_eq. cbn [hd tl]. rewrite switch_on_p.
  destruct (led_on_frame w) as (Hout & _ & _ & Hacks' & _).
  rewrite (case_p_two_tokens args token after token2 after2 nresult acks (led_on w)
             Ht1 Ht2) by congruence.
  fold us_SH us_ICG. eexists. split; [reflexivity|].
  match goal with |- context [led_off ?x] =>
    destruct (led_off_frame x) as (-> & _ & _ & -> & _ & ->);
    rewrite (led_off_bus x)
  end.
  cbn [stdout trace i2c_acks msg_bytes set_stdout log set_trace set_i2c_acks
       set_msg_bytes].
  rewrite bus_writes_app, led_on_bus, Hout. repeat split.
Qed.
End Period.

Lemma decimal_first_char z :
  0 <= z -> exists c rest, decimal z = c :: rest /\ c <> "e"%char.
Proof.
  intros Hz. unfold decimal, chars. destruct z as [|p|p]; [| |lia].
  - eexists _, _. split; [reflexivity | discriminate].
  - cbn [Z.to_int NilZero.string_of_int].
    destruct (Pos.to_uint p) as [|d|d|d|d|d|d|d|d|d|d];
      eexists _, _; (split; [reflexivity | discriminate]).
Qed.

(** C6. A ['p'] command without tokens answers
    [p error: no value for us_SH (nor us_ICG)], one with a single token
    answers [p error: no value for us_ICG]; in both cases nothing is written
    to the bus, the command returns, and the loop of [main] goes on with
    the input that follows. *)
Theorem period_command_missing_token :
  forall (fmt_g : float -> list ascii) (args text : list ascii) (w : World),
    missing_token_reply args = Some text ->
    (strtok args = None -> text = chars "p error: no value for us_SH (nor us_ICG)")
    /\ (forall token after,
          strtok args = Some (token, after) ->
          strtok after = None /\ text = chars "p error: no value for us_ICG")
    /\ (exists w',
          interpret_command fmt_g ("p"%char :: args) w = Some (tt, w')
          /\ stdout w' = stdout w ++ line text
          /\ bus_writes (trace w') = bus_writes (trace w)
          /\ i2c_acks w' = i2c_acks w
          /\ msg_bytes w' = msg_bytes w)
    /\ (forall (k : nat) (rest : list ascii),
          Forall plain_char args ->
          Z.of_nat (length args) + 1 <= NBUFA - 1 ->
          length (bufA w) = Z.to_nat NBUFA ->
          stdin w = "p"%char :: args ++ NL :: rest ->
          exists w',
            main_loop fmt_g (S k) w = main_loop fmt_g k w'
            /\ stdin w' = rest
            /\ stdout w' = stdout w ++ line text
            /\ bus_writes (trace w') = bus_writes (trace w)
            /\ i2c_acks w' = i2c_acks w).
Proof.
  intros fmt_g args text w Hmiss.
  split; [|split; [|split]].
  - intros Hnone. unfold missing_token_reply in Hmiss. rewrite Hnone in Hmiss.
    congruence.
  - intros token after Hsome. unfold missing_token_reply in Hmiss.
    rewrite Hsome in Hmiss. destruct (strtok after) as [[]|]; [discriminate|].
    split; congruence.
  - destruct (period_missing_run fmt_g args text w Hmiss)
      as (w' & Hrun & Hout & Hbus & Hacks & Hmsg & _).
    exists w'. repeat split; assumption.
  - intros k rest Hplain Hfit Hbuf Hin.
    destruct (main_loop_round fmt_g k ("p"%char :: args) rest w) as (buf & Hround).
    { constructor; [|exact Hplain]. repeat split; discriminate. }
    { discriminate. }
    { cbn [length]. lia. }
    { exact Hbuf. }
    { exact Hin. }
    destruct (period_missing_run fmt_g args text (set_stdin rest (set_bufA buf w)) Hmiss)
      as (w' & Hrun & Hout & Hbus & Hacks & Hmsg & Hstdin).
    exists w'. rewrite Hround. unfold bind. rewrite Hrun.
    repeat split; assumption.
Qed.

(** C3. For two tokens that parse to 16-bit unsigned values [us_SH] and
    [us_ICG], the ['p'] command builds the message
    [us_SH high; us_SH low; us_ICG high; us_ICG low], sends it in one bus
    write to address 0x51, and answers [p <us_SH> <us_ICG>] exactly when
    the write reports 4 bytes; any other count gives
    [p error: unsuccessful I2C communication]. *)
Theorem period_command_transmits :
  forall (fmt_g : float -> list ascii) (args token after token2 after2 : list ascii)
         (nresult : Z) (acks : list Z) (w : World),
    strtok args = Some (token, after) ->
    strtok after = Some (token2, after2) ->
    0 <= atoi token < 2 ^ 16 ->
    0 <= atoi token2 < 2 ^ 16 ->
    i2c_acks w = nresult :: acks ->
    let us_SH := atoi token in
    let us_ICG := atoi token2 in
    let success := line (chars "p " ++ decimal us_SH ++ chars " " ++ decimal us_ICG) in
    let failure := line (chars "p error: unsuccessful I2C communication") in
    exists w' reply,
      interpret_command fmt_g ("p"%char :: args) w = Some (tt, w')
      /\ msg_bytes w' = [us_SH / 256; us_SH mod 256; us_ICG / 256; us_ICG mod 256]
      /\ bus_writes (trace w') = bus_writes (trace w) ++ [(0x51, msg_bytes w')]
      /\ stdout w' = stdout w ++ reply
      /\ (reply = success <-> nresult = 4)
      /\ (nresult <> 4 -> reply = failure).
Proof.
  intros fmt_g args token after token2 after2 nresult acks w Ht1 Ht2 Hsh Hicg Hacks
         us_SH us_ICG success failure.
  destruct (period_run fmt_g args token after token2 after2 nresult acks w Ht1 Ht2 Hacks)
    as (w' & Hrun & Hmsg & Hbus & _ & Hout).
  unfold to_uint16 in *. rewrite !Z.mod_small in * by assumption.
  fold us_SH us_ICG in Hmsg, Hbus, Hout.
  exists w', (period_reply us_SH us_ICG nresult).
  split; [exact Hrun|]. split; [exact Hmsg|]. split; [now rewrite Hmsg|].
  split; [exact Hout|]. unfold period_reply.
  destruct (Z.eqb_spec nresult 4) as [-> | Hne].
  - split; [split; reflexivity | intros []; reflexivity].
  - split; [|reflexivity]. split; [|contradiction].
    subst success. unfold line. cbn [chars list_ascii_of_string app].
    destruct (decimal_first_char us_SH (proj1 Hsh)) as (c & rest & -> & Hc).
    cbn [app]. intros [= Heq]. congruence.
Qed.

(** C10. Whatever integers [a] and [b] the two tokens of a ['p'] command
    parse to, the values put in the message, sent, and echoed in the
    success answer are [a mod 2^16] and [b mod 2^16]; the token [70000] is
    sent and echoed as [4464]. *)
Theorem period_values_wrap_to_16_bits :
  forall (fmt_g : float -> list ascii) (w : World) (nresult : Z) (acks : list Z),
    i2c_acks w = nresult :: acks ->
    (forall (args token after token2 after2 : list ascii),
        strtok args = Some (token, after) ->
        strtok after = Some (token2, after2) ->
        let a := atoi token in
        let b := atoi token2 in
        exists w',
          interpret_command fmt_g ("p"%char :: args) w = Some (tt, w')
          /\ msg_bytes w' = period_message (a mod 2 ^ 16) (b mod 2 ^ 16)
          /\ bus_writes (trace w')
             = bus_writes (trace w) ++ [(0x51, period_message (a mod 2 ^ 16) (b mod 2 ^ 16))]
          /\ (nresult = 4 ->
              stdout w'
              = stdout w ++ line (chars "p " ++ decimal (a mod 2 ^ 16) ++ chars " "
                                  ++ decimal (b mod 2 ^ 16))))
    /\ (exists w',
          interpret_command fmt_g (chars "p 70000 8400") w = Some (tt, w')
          /\ atoi (chars "70000") = 70000
          /\ bus_writes (trace w') = bus_writes (trace w) ++ [(0x51, [17; 112; 32; 208])]
          /\ 17 * 256 + 112 = 4464
          /\ (nresult = 4 -> stdout w' = stdout w ++ line (chars "p 4464 8400"))).
Proof.
  intros fmt_g w nresult acks Hacks. split.
  - intros args token after token2 after2 Ht1 Ht2 a b.
    destruct (period_run fmt_g args token after token2 after2 nresult acks w Ht1 Ht2 Hacks)
      as (w' & Hrun & Hmsg & Hbus & _ & Hout).
    exists w'. repeat split; try assumption.
    intros ->. exact Hout.
  - destruct (period_run fmt_g (chars " 70000 8400") (chars "70000") (chars "8400")
                (chars "8400") [] nresult acks w eq_refl eq_refl Hacks)
      as (w' & Hrun & Hmsg & Hbus & _ & Hout).
    exists w'. repeat split; try assumption.
    intros ->. exact Hout.
Qed.

(** ** The LED command *)

Section Led.
Variable fmt_g : float -> list ascii.

Lemma led_no_token_run args w :
  strtok args = None ->
  interpret_command fmt_g ("L"%char :: args) w
  = Some (tt, led_off (set_stdout (stdout w ++ line (chars "L error: no value"))
                         (led_on w))).
Proof.
  intros Hnone. rewrite interpret_command_eq. cbn [hd tl].
  rewrite switch_on_L. unfold case_L. rewrite Hnone. unfold printf.
  now destruct (led_on_frame w) as (-> & _).
Qed.

Lemma led_token_run args token after w :
  strtok args = Some (token, after) ->
  let i := atoi token mod 2 in
  exists w',
    interpret_command fmt_g ("L"%char :: args) w = Some (tt, w')
    /\ override_led w' = i
    /\ Z.b2z (led w') = i
    /\ stdout w' = stdout w ++ line (chars "L " ++ decimal i).
Proof.
  intros Htok i. rewrite interpret_command_eq. cbn [hd tl].
  rewrite switch_on_L. unfold case_L. rewrite Htok, land_lsb. fold i.
  unfold bind, gpio_put_led, write_override_led, printf.
  eexists. split; [reflexivity|].
  destruct (led_on_frame w) as (Hout & _).
  assert (Hi : i = 0 \/ i = 1) by (subst i; Z.div_mod_to_equations; lia).
  unfold led_off. cbn [override_led set_stdout set_override_led].
  destruct Hi as [-> | ->]; cbn [Z.eqb negb]; cbv iota;
    cbn [override_led led stdout log set_trace set_led set_stdout set_override_led];
    rewrite Hout; repeat split.
Qed.
End Led.

(** C7. The ['L'] command without a token answers [L error: no value] and
    leaves the override flag and (between commands, when the LED shows that
    flag) the LED output as they were; with a token that parses to [v] it
    sets both to [v mod 2] and answers [L <v mod 2>]: [L 5] gives [L 1] and
    [L 4] gives [L 0]. *)
Theorem led_command :
  forall (fmt_g : float -> list ascii) (w : World),
    (forall args,
        strtok args = None ->
        exists w',
          interpret_command fmt_g ("L"%char :: args) w = Some (tt, w')
          /\ stdout w' = stdout w ++ line (chars "L error: no value")
          /\ override_led w' = override_led w
          /\ (led_idle w -> led w' = led w))
    /\ (forall args token after,
          strtok args = Some (token, after) ->
          let v := atoi token in
          exists w',
            interpret_command fmt_g ("L"%char :: args) w = Some (tt, w')
            /\ override_led w' = v mod 2
            /\ Z.b2z (led w') = v mod 2
            /\ stdout w' = stdout w ++ line (chars "L " ++ decimal (v mod 2)))
    /\ (exists w',
          interpret_command fmt_g (chars "L 5") w = Some (tt, w')
          /\ stdout w' = stdout w ++ line (chars "L 1")
          /\ override_led w' = 1 /\ led w' = true)
    /\ (exists w',
          interpret_command fmt_g (chars "L 4") w = Some (tt, w')
          /\ stdout w' = stdout w ++ line (chars "L 0")
          /\ override_led w' = 0 /\ led w' = false).
Proof.
  intros fmt_g w. split; [|split; [|split]].
  - intros args Hnone. eexists. split; [apply led_no_token_run; exact Hnone|].
    match goal with |- context [led_off ?x] =>
      destruct (led_off_frame x) as (-> & _ & -> & _)
    end.
    cbn [stdout override_led set_stdout].
    destruct (led_on_frame w) as (_ & _ & -> & _).
    repeat split. unfold led_idle, led_off, led_on.
    cbn [override_led set_stdout].
    destruct (override_led w =? 0) eqn:E;
      cbn [override_led led log set_trace set_led set_stdout]; rewrite ?E; cbn [negb led log set_trace set_led set_stdout];
      congruence.
  - intros args token after Htok v. exact (led_token_run fmt_g args token after w Htok).
  - destruct (led_token_run fmt_g (chars " 5") (chars "5") [] w eq_refl)
      as (w' & Hrun & Hov & Hled & Hout).
    exists w'. repeat split; try assumption.
    destruct (led w'); [reflexivity | discriminate].
  - destruct (led_token_run fmt_g (chars " 4") (chars "4") [] w eq_refl)
      as (w' & Hrun & Hov & Hled & Hout).
    exists w'. repeat split; try assumption.
    destruct (led w'); [discriminate | reflexivity].
Qed.

(** ** Synchronised capture *)

Lemma poll_while_complete level n later :
  poll_while level (repeat level n ++ negb level :: later)
  = Some (repeat level n ++ [negb level], later).
Proof.
  induction n as [|n IH]; cbn [repeat app poll_while].
  - now destruct level.
  - rewrite IH. now destruct level.
Qed.

Lemma poll_while_sound level readings seen later :
  poll_while level readings = Some (seen, later) ->
  exists n, seen = repeat level n ++ [negb level] /\ readings = seen ++ later.
Proof.
  revert seen. induction readings as [|b readings IH]; intros seen; [discriminate|].
  cbn [poll_while]. destruct (Bool.eqb b level) eqn:E.
  - apply Bool.eqb_prop in E. subst b.
    destruct (poll_while level readings) as [[seen' later']|]; [|discriminate].
    intros [= <- <-]. destruct (IH seen' eq_refl) as (n & -> & ->).
    exists (S n). split; reflexivity.
  - intros [= <- <-]. exists 0%nat. split; [|reflexivity].
    cbn. f_equal. destruct b, level; try reflexivity; discriminate.
Qed.

(** The capture loop stores the next [count] values of the FIFO, in order. *)
Lemma capture_loop (vals : list Z) :
  forall (done todo more : list Z) (w : World),
    length todo = length vals ->
    adc_samples w = done ++ todo ->
    adc_fifo w = vals ++ more ->
    for_from (length done) (length vals)
      (fun i => bind adc_fifo_get_blocking (fun v w0 =>
         Some (tt, set_adc_samples (<[i := v]> (adc_samples w0)) w0))) w
    = Some (tt, set_trace (trace w ++ map EvFifoGet vals)
                  (set_adc_fifo more (set_adc_samples (done ++ vals) w))).
Proof.
  induction vals as [|v vals IH]; intros done todo more w Hlen Hbuf Hfifo.
  - destruct todo; [|discriminate]. cbn [length for_from map].
    rewrite !app_nil_r in *. cbn [app] in Hfifo. unfold ret.
    rewrite <- Hbuf, <- Hfifo. now destruct w.
  - destruct todo as [|x todo]; [discriminate|]. cbn [length] in Hlen.
    cbn [length for_from]. unfold bind at 1 2. unfold adc_fifo_get_blocking.
    rewrite Hfifo. cbn [app adc_samples log set_trace set_adc_fifo].
    rewrite Hbuf, insert_after_prefix.
    replace (S (length done)) with (length (done ++ [v]))
      by (rewrite length_app; cbn [length]; lia).
    rewrite (IH (done ++ [v]) todo more).
    + cbn [map]. do 2 f_equal. world_eq.
    + lia.
    + world_fields. now rewrite <- app_assoc.
    + reflexivity.
Qed.

Lemma adc_capture_run (vals more : list Z) (w : World) :
  length vals = N_SAMPLES ->
  length (adc_samples w) = N_SAMPLES ->
  adc_fifo w = vals ++ more ->
  adc_capture N_SAMPLES w
  = Some (tt, set_trace (trace w ++ EvAdcRun true :: map EvFifoGet vals
                                  ++ [EvAdcRun false; EvFifoDrain])
                (set_adc_fifo more (set_adc_samples vals w))).
Proof.
  intros Hvals Hbuf Hfifo. unfold adc_capture, for_upto.
  unfold bind at 1. unfold adc_run at 1.
  rewrite <- Hvals. change 0%nat with (length (@nil Z)).
  unfold bind at 1.
  rewrite (capture_loop vals [] (adc_samples w) more (log (EvAdcRun true) w));
    [|congruence|reflexivity|exact Hfifo].
  unfold bind, adc_run, adc_fifo_drain. do 2 f_equal. world_eq.
Qed.

Lemma capture_loop_needs (count : nat) :
  forall (start : nat) (w : World) r,
    for_from start count
      (fun i => bind adc_fifo_get_blocking (fun v w0 =>
         Some (tt, set_adc_samples (<[i := v]> (adc_samples w0)) w0))) w = Some r ->
    exists vals more, length vals = count /\ adc_fifo w = vals ++ more.
Proof.
  induction count as [|count IH]; intros start w r.
  - intros _. exists [], (adc_fifo w). split; reflexivity.
  - cbn [for_from]. unfold bind at 1 2. unfold adc_fifo_get_blocking.
    destruct (adc_fifo w) as [|v fifo] eqn:Hfifo; [discriminate|].
    intros Hrun. apply IH in Hrun as (vals & more & Hlen & Hrest).
    world_fields_in Hrest. exists (v :: vals), more. cbn [length app].
    split; congruence.
Qed.

Lemma adc_capture_needs (w : World) r :
  adc_capture N_SAMPLES w = Some r ->
  exists vals more, length vals = N_SAMPLES /\ adc_fifo w = vals ++ more.
Proof.
  unfold adc_capture, for_upto. unfold bind at 1. unfold adc_run at 1.
  unfold bind at 1.
  match goal with |- context [for_from 0 N_SAMPLES ?body ?w0] =>
    destruct (for_from 0 N_SAMPLES body w0) as [r0|] eqn:Hloop; [|discriminate];
    destruct (capture_loop_needs _ _ _ _ Hloop) as (vals & more & Hlen & Hfifo)
  end.
  intros _. exists vals, more. split; assumption.
Qed.

Section Capture.
Variable fmt_g : float -> list ascii.

Lemma case_b_run highs lows later t0 t1 ts vals more w :
  icg_levels w = repeat true highs ++ false :: repeat false lows ++ true :: later ->
  timer w = t0 :: t1 :: ts ->
  adc_fifo w = vals ++ more ->
  length vals = N_SAMPLES ->
  length (adc_samples w) = N_SAMPLES ->
  case_b fmt_g w
  = Some (tt,
          set_stdout (stdout w ++ batch_reply fmt_g (fp_contract w) vals t0 t1)
            (set_trace (trace w ++ map EvIcg (repeat true highs ++ [false])
                                ++ map EvIcg (repeat false lows ++ [true])
                                ++ capture_events t0 t1 vals)
               (set_timer ts (set_adc_fifo more (set_adc_samples vals
                  (set_icg_levels later w)))))).
Proof.
  intros Hicg Htimer Hfifo Hvals Hbuf. unfold case_b.
  unfold bind at 1. unfold wait_while_icg at 1.
  rewrite Hicg, (poll_while_complete true highs).
  unfold bind at 1. unfold wait_while_icg at 1. world_fields.
  rewrite (poll_while_complete false lows).
  unfold bind at 1. unfold time_us_32 at 1. world_fields. rewrite Htimer.
  unfold bind at 1.
  rewrite (adc_capture_run vals more) by (world_fields; assumption).
  unfold bind at 1. unfold time_us_32 at 1. world_fields.
  unfold bind, read_samples, read_fp_contract, printf. world_fields.
  do 2 f_equal. unfold batch_reply, capture_events. world_eq.
  cbn [app]. now rewrite <- !app_assoc.
Qed.

Lemma case_b_needs w r :
  length (adc_samples w) = N_SAMPLES ->
  case_b fmt_g w = Some r ->
  exists highs lows later t0 t1 ts vals more,
    icg_levels w = repeat true highs ++ false :: repeat false lows ++ true :: later
    /\ timer w = t0 :: t1 :: ts
    /\ adc_fifo w = vals ++ more
    /\ length vals = N_SAMPLES.
Proof.
  intros Hbuf. unfold case_b. unfold bind at 1. unfold wait_while_icg at 1.
  destruct (poll_while true (icg_levels w)) as [[seen1 later1]|] eqn:H1; [|discriminate].
  unfold bind at 1. unfold wait_while_icg at 1. world_fields.
  destruct (poll_while false later1) as [[seen2 later2]|] eqn:H2; [|discriminate].
  unfold bind at 1. unfold time_us_32 at 1. world_fields.
  destruct (timer w) as [|t0 ts0] eqn:Ht; [discriminate|].
  unfold bind at 1.
  match goal with |- context [adc_capture N_SAMPLES ?w0] =>
    destruct (adc_capture N_SAMPLES w0) as [[[] w1]|] eqn:Hcap; [|discriminate];
    destruct (adc_capture_needs _ _ Hcap) as (vals & more & Hlen & Hfifo);
    rewrite (adc_capture_run vals more w0 Hlen) in Hcap by (world_fields; assumption)
  end.
  world_fields_in Hfifo. injection Hcap as <-.
  unfold bind at 1. unfold time_us_32 at 1. world_fields.
  destruct ts0 as [|t1 ts]; [discriminate|]. intros _.
  apply poll_while_sound in H1 as (highs & -> & Hicg).
  apply poll_while_sound in H2 as (lows & -> & ->).
  exists highs, lows, later2, t0, t1, ts, vals, more.
  cbn [negb] in Hicg. rewrite <- !app_assoc in Hicg. cbn [app] in Hicg.
  repeat split; assumption.
Qed.
End Capture.

Lemma led_on_eq w :
  led_on w = set_trace (trace w ++ indicator (override_led w) true)
               (set_led (if override_led w =? 0 then true else led w) w).
Proof.
  unfold led_on, indicator. destruct (override_led w =? 0); [reflexivity|].
  world_eq. now rewrite app_nil_r.
Qed.

Lemma led_off_eq w :
  led_off w = set_trace (trace w ++ indicator (override_led w) false)
                (set_led (if override_led w =? 0 then false else led w) w).
Proof.
  unfold led_off, indicator. destruct (override_led w =? 0); [reflexivity|].
  world_eq. now rewrite app_nil_r.
Qed.

Lemma polls_before_timer_app (seen : list bool) (t : Z) (rest : list event) :
  polls_before_timer (map EvIcg seen ++ EvTime t :: rest) = seen.
Proof. induction seen as [|b seen IH]; [reflexivity|]. cbn. now rewrite IH. Qed.

Lemma polls_before_timer_indicator ov level tr :
  polls_before_timer (indicator ov level ++ tr) = polls_before_timer tr.
Proof. unfold indicator. now destruct (ov =? 0). Qed.

Section BatchCommand.
Variable fmt_g : float -> list ascii.

(** What the ['b'] command does when the peripherals deliver. *)
Lemma batch_run args highs lows later t0 t1 ts vals more w :
  icg_levels w = repeat true highs ++ false :: repeat false lows ++ true :: later ->
  timer w = t0 :: t1 :: ts ->
  adc_fifo w = vals ++ more ->
  length vals = N_SAMPLES ->
  length (adc_samples w) = N_SAMPLES ->
  exists w',
    interpret_command fmt_g ("b"%char :: args) w = Some (tt, w')
    /\ trace w' = trace w ++ indicator (override_led w) true
                  ++ map EvIcg (repeat true highs ++ [false])
                  ++ map EvIcg (repeat false lows ++ [true])
                  ++ capture_events t0 t1 vals
                  ++ indicator (override_led w) false
    /\ adc_samples w' = vals
    /\ stdout w' = stdout w ++ batch_reply fmt_g (fp_contract w) vals t0 t1
    /\ override_led w' = override_led w
    /\ led w' = (if override_led w =? 0 then false else led w).
Proof.
  intros Hicg Htimer Hfifo Hvals Hbuf.
  rewrite interpret_command_eq. cbn [hd tl]. rewrite switch_on_b.
  rewrite (case_b_run fmt_g highs lows later t0 t1 ts vals more (led_on w));
    try assumption; try (rewrite led_on_eq; world_fields; assumption).
  eexists. split; [reflexivity|].
  rewrite led_off_eq, led_on_eq. world_fields.
  rewrite <- !app_assoc. repeat split.
  destruct (override_led w =? 0); reflexivity.
Qed.
End BatchCommand.

(** C2, as amended. The ['b'] command completes exactly when the ICG input
    delivers a low reading and later a high one, two timer values and
    [N_SAMPLES] FIFO values are available; it then has polled the ICG input
    until it read low, then polled it until it read high, and only after
    that read the timer, switched the converter on and pulled the
    [N_SAMPLES] samples. *)
Theorem batch_waits_for_low_then_high :
  forall (fmt_g : float -> list ascii) (args : list ascii) (w : World),
    length (adc_samples w) = N_SAMPLES ->
    (forall highs lows later t0 t1 ts vals more,
        icg_levels w = repeat true highs ++ false :: repeat false lows ++ true :: later ->
        timer w = t0 :: t1 :: ts ->
        adc_fifo w = vals ++ more ->
        length vals = N_SAMPLES ->
        exists w', interpret_command fmt_g ("b"%char :: args) w = Some (tt, w'))
    /\ (forall w',
          interpret_command fmt_g ("b"%char :: args) w = Some (tt, w') ->
          exists seen1 seen2 t0 t1 vals,
            polled_until false seen1
            /\ polled_until true seen2
            /\ length vals = N_SAMPLES
            /\ adc_samples w' = vals
            /\ trace w' = trace w ++ indicator (override_led w) true
                          ++ map EvIcg seen1 ++ map EvIcg seen2
                          ++ capture_events t0 t1 vals
                          ++ indicator (override_led w) false
            /\ polls_before_timer
                 (indicator (override_led w) true ++ map EvIcg seen1 ++ map EvIcg seen2
                  ++ capture_events t0 t1 vals ++ indicator (override_led w) false)
               = seen1 ++ seen2).
Proof.
  intros fmt_g args w Hbuf. split.
  - intros highs lows later t0 t1 ts vals more Hicg Htimer Hfifo Hvals.
    destruct (batch_run fmt_g args highs lows later t0 t1 ts vals more w)
      as (w' & Hrun & _); try assumption.
    exists w'. exact Hrun.
  - intros w' Hrun.
    assert (Hneeds : exists r, case_b fmt_g (led_on w) = Some r).
    { rewrite interpret_command_eq in Hrun. cbn [hd tl] in Hrun.
      rewrite switch_on_b in Hrun.
      destruct (case_b fmt_g (led_on w)) as [r|]; [now exists r | discriminate]. }
    destruct Hneeds as (r & Hcase).
    apply case_b_needs in Hcase
        as (highs & lows & later & t0 & t1 & ts & vals & more & Hicg & Htimer & Hfifo & Hvals);
      [|rewrite led_on_eq; world_fields; exact Hbuf].
    rewrite led_on_eq in Hicg, Htimer, Hfifo.
    world_fields_in Hicg. world_fields_in Htimer. world_fields_in Hfifo.
    destruct (batch_run fmt_g args highs lows later t0 t1 ts vals more w)
      as (w2 & Hrun2 & Htrace & Hsamples & _); try assumption.
    assert (w2 = w') by congruence. subst w2.
    exists (repeat true highs ++ [false]), (repeat false lows ++ [true]), t0, t1, vals.
    split; [now exists highs|]. split; [now exists lows|].
    split; [exact Hvals|]. split; [exact Hsamples|]. split; [exact Htrace|].
    rewrite polls_before_timer_indicator.
    rewrite (app_assoc (map EvIcg _) (map EvIcg _)), <- map_app.
    unfold capture_events. cbn [app].
    apply polls_before_timer_app.
Qed.

(** C2, as the specification words it, fails: with the ICG input reading low
    and then high, the capture starts after these two readings, although
    no high reading followed by a low one has been seen. *)
Lemma batch_does_not_wait_for_high_then_low :
  exists w',
    interpret_command no_format (chars "b")
      (power_on [] [false; true] (repeat 0 N_SAMPLES) [] [10; 20] []) = Some (tt, w')
    /\ polls_before_timer (trace w') = [false; true]
    /\ ~ (exists seen1 seen2,
             polled_until true seen1 /\ polled_until false seen2
             /\ polls_before_timer (trace w') = seen1 ++ seen2).
Proof.
  destruct (batch_run no_format [] 0 0 [] 10 20 [] (repeat 0 N_SAMPLES) []
              (power_on [] [false; true] (repeat 0 N_SAMPLES) [] [10; 20] []))
    as (w' & Hrun & Htrace & _).
  - reflexivity.
  - reflexivity.
  - cbn [adc_fifo power_on]. now rewrite app_nil_r.
  - apply repeat_length.
  - apply repeat_length.
  - exists w'. split; [exact Hrun|].
    assert (Hpolls : polls_before_timer (trace w') = [false; true])
      by (rewrite Htrace; reflexivity).
    split; [exact Hpolls|].
    intros (seen1 & seen2 & (n & ->) & (m & ->) & Heq).
    rewrite Hpolls in Heq. apply (f_equal (@rev bool)) in Heq.
    rewrite !rev_app_distr in Heq. cbn in Heq. discriminate.
Qed.

(** ** Replies and the command code *)

Section Replies.
Variable fmt_g : float -> list ascii.




End Replies.

Lemma decimal_report_samples (samples : list Z) :
  length samples = N_SAMPLES ->
  decimal_report samples = flat_map (fun v => line (decimal v)) samples.
Proof.
  intros Hlen. unfold decimal_report. rewrite <- Hlen.
  rewrite !flat_map_concat_map.
  now rewrite (map_nth_seq (fun v => line (decimal v)) samples).
Qed.



(** ** The world between commands *)

Section Idle.
Variable fmt_g : float -> list ascii.

(** A command body either leaves the LED and its override flag alone, or
    (case ['L']) leaves the LED showing the flag. *)
Lemma switch_on_frame code args w w1 :
  length (adc_samples w) = N_SAMPLES ->
  switch_on fmt_g code args w = Some (tt, w1) ->
  length (adc_samples w1) = N_SAMPLES
  /\ bufA w1 = bufA w
  /\ ((override_led w1 = override_led w /\ led w1 = led w) \/ led_idle w1).
Proof.
  intros Hbuf. unfold switch_on.
  destruct (char_is code "v").
  { unfold case_v, printf. intros [= <-]. world_fields. auto. }
  destruct (char_is code "L").
  { unfold case_L. destruct (strtok args) as [[token after]|].
    - rewrite land_lsb. unfold bind, gpio_put_led, write_override_led, printf.
      intros [= <-]. world_fields. split; [exact Hbuf|]. split; [reflexivity|].
      right. unfold led_idle. world_fields. reflexivity.
    - unfold printf. intros [= <-]. world_fields. auto. }
  destruct (char_is code "a").
  { unfold case_a, bind, adc_read, printf.
    destruct (adc_conv w); [discriminate|]. intros [= <-]. world_fields. auto. }
  destruct (char_is code "b").
  { intros Hrun.
    destruct (case_b_needs fmt_g w _ Hbuf Hrun)
      as (highs & lows & later & t0 & t1 & ts & vals & more & Hicg & Htimer & Hfifo & Hvals).
    rewrite (case_b_run fmt_g highs lows later t0 t1 ts vals more w) in Hrun by assumption.
    injection Hrun as <-. world_fields. auto. }
  destruct (char_is code "r").
  { rewrite case_r_run. intros [= <-]. world_fields. auto. }
  destruct (char_is code "q").
  { rewrite case_q_run. intros [= <-]. world_fields. auto. }
  destruct (char_is code "p").
  { unfold case_p. destruct (strtok args) as [[token after]|].
    - destruct (strtok after) as [[token2 after2]|].
      + unfold bind, write_msg_bytes, i2c_write_blocking. world_fields.
        destruct (i2c_acks w); [discriminate|].
        destruct (negb (_ =? 4)); unfold printf; intros [= <-]; world_fields; auto.
      + unfold printf. intros [= <-]. world_fields. auto.
    - unfold printf. intros [= <-]. world_fields. auto. }
  unfold case_default, printf. intros [= <-]. world_fields. auto.
Qed.

Lemma interpret_command_idle cmdStr w w' :
  idle_world w ->
  interpret_command fmt_g cmdStr w = Some (tt, w') ->
  idle_world w'.
Proof.
  intros (Hled & Hbuf & Hline). rewrite interpret_command_eq.
  destruct (switch_on fmt_g (hd NUL cmdStr) (tl cmdStr) (led_on w)) as [[[] w1]|] eqn:Hsw;
    [|discriminate].
  intros [= <-].
  apply switch_on_frame in Hsw as (Hbuf1 & Hline1 & Hled1);
    [|rewrite led_on_eq; world_fields; exact Hbuf].
  rewrite led_on_eq in Hline1, Hled1. world_fields_in Hline1. world_fields_in Hled1.
  unfold idle_world, led_idle in *. rewrite led_off_eq. world_fields.
  split; [|split; [exact Hbuf1 | congruence]].
  destruct (override_led w1 =? 0) eqn:Hov1; [reflexivity|].
  destruct Hled1 as [[Hov Hl] | Hidle]; [|exact Hidle].
  rewrite Hov in Hov1. rewrite Hov1 in Hl, Hled. now rewrite Hl, Hled.
Qed.

(** The loop of [main] keeps the world idle between commands. *)
Lemma main_loop_idle k :
  forall w w',
    idle_world w ->
    main_loop fmt_g k w = Some (tt, w') ->
    idle_world w'.
Proof.
  induction k as [|k IH]; intros w w' Hidle; [now intros [= <-]|].
  cbn [main_loop]. unfold bind at 1. unfold getstr, getstr_run.
  destruct (getstr_loop NBUFA (stdin w) (mkLine (bufA w) 0 [])) as [[st rest]|] eqn:Hget;
    [|discriminate].
  destruct Hidle as (Hled & Hbuf & Hline).
  assert (Hst : line_ok NBUFA st).
  { eapply (getstr_loop_keeps NBUFA); [unfold NBUFA; lia | | exact Hget].
    unfold line_ok, NBUFA in *. cbn [ls_i ls_buf ls_writes].
    repeat split; try lia; try assumption. constructor. }
  destruct Hst as (_ & Hlen & _).
  assert (Hidle1 : idle_world (set_stdin rest (set_bufA (ls_buf st) w))).
  { unfold idle_world, led_idle. world_fields. repeat split; assumption. }
  unfold bind at 1. destruct (ls_i st >? 0).
  - world_fields.
    destruct (interpret_command fmt_g (cstring (ls_buf st))
                (set_stdin rest (set_bufA (ls_buf st) w))) as [[[] w1]|] eqn:Hcmd;
      [|discriminate].
    apply IH. exact (interpret_command_idle _ _ _ Hidle1 Hcmd).
  - unfold ret. apply IH. exact Hidle1.
Qed.
End Idle.

Lemma power_on_idle input icg fifo conv clock acks :
  idle_world (power_on input icg fifo conv clock acks).
Proof.
  unfold idle_world, led_idle, power_on. cbn [led override_led adc_samples bufA].
  repeat split; apply repeat_length.
Qed.

(** ** Single-precision arithmetic on small integers is exact *)

Lemma iter_pos_nat {A} (f : A -> A) (p : positive) (x : A) :
  SpecFloat.iter_pos f p x = Nat.iter (Pos.to_nat p) f x.
Proof.
  revert x. induction p as [p IH|p IH|]; intros x; cbn [SpecFloat.iter_pos].
  - rewrite !IH, Pos2Nat.inj_xI.
    replace (S (2 * Pos.to_nat p))%nat with (Pos.to_nat p + (Pos.to_nat p + 1))%nat by lia.
    rewrite !Nat.iter_add. reflexivity.
  - rewrite !IH, Pos2Nat.inj_xO.
    replace (2 * Pos.to_nat p)%nat with (Pos.to_nat p + Pos.to_nat p)%nat by lia.
    now rewrite Nat.iter_add.
  - reflexivity.
Qed.

Lemma pos_iter_shl (p : positive) (k : positive) :
  Pos.iter xO p k = shl (Pos.to_nat k) p.
Proof.
  rewrite Pos2Nat.inj_iter. induction (Pos.to_nat k) as [|n IH]; [reflexivity|].
  cbn. now rewrite IH.
Qed.

Lemma digits_shl k p :
  Zpos (digits2_pos (shl k p)) = Zpos (digits2_pos p) + Z.of_nat k.
Proof.
  induction k as [|k IH]; [cbn; lia|].
  cbn [shl digits2_pos]. rewrite Pos2Z.inj_succ, IH. lia.
Qed.

Lemma Zpos_shl k p : Zpos (shl k p) = Zpos p * 2 ^ Z.of_nat k.
Proof.
  induction k as [|k IH]; [cbn; lia|].
  cbn [shl].
  rewrite Pos2Z.inj_xO, IH, Nat2Z.inj_succ, Z.pow_succ_r by lia. lia.
Qed.

Lemma shr_shl j i p :
  Nat.iter j shr_1 (Build_shr_record (Zpos (shl (j + i) p)) false false)
  = Build_shr_record (Zpos (shl i p)) false false.
Proof.
  induction j as [|j IH]; [reflexivity|].
  rewrite Nat.iter_succ_r. cbn [Nat.add shl shr_1 orb].
  exact IH.
Qed.

Lemma digits_bound p : Zpos p < 2 ^ Zpos (digits2_pos p).
Proof.
  induction p as [p IH|p IH|]; cbn [digits2_pos]; rewrite ?Pos2Z.inj_succ, ?Z.pow_succ_r by lia; lia.
Qed.

Lemma digits_lower p : 2 ^ (Zpos (digits2_pos p) - 1) <= Zpos p.
Proof.
  induction p as [p IH|p IH|]; cbn [digits2_pos]; rewrite ?Pos2Z.inj_succ.
  - replace (Z.succ (Zpos (digits2_pos p)) - 1) with (Z.succ (Zpos (digits2_pos p) - 1)) by lia.
    rewrite Z.pow_succ_r by lia. lia.
  - replace (Z.succ (Zpos (digits2_pos p)) - 1) with (Z.succ (Zpos (digits2_pos p) - 1)) by lia.
    rewrite Z.pow_succ_r by lia. lia.
  - cbn. lia.
Qed.

Lemma shl_shl j i p : shl j (shl i p) = shl (j + i) p.
Proof. induction j as [|j IH]; [reflexivity|]. cbn. now rewrite IH. Qed.

(** A mantissa that only carries [j] extra zero bits rounds to itself. *)
Lemma round_aux_exact (s : bool) (m : positive) (e : Z) (j : nat) :
  fexp 24 128 (Zpos (digits2_pos m) + e) = e ->
  e <= 104 ->
  binary_round_aux 24 128 s (Zpos (shl j m)) (e - Z.of_nat j) loc_Exact
  = S754_finite s m e.
Proof.
  intros Hcanon He. unfold binary_round_aux, shr_fexp.
  cbn [Zdigits2 shr_record_of_loc]. rewrite digits_shl.
  replace (Zpos (digits2_pos m) + Z.of_nat j + (e - Z.of_nat j))
    with (Zpos (digits2_pos m) + e) by lia.
  rewrite Hcanon.
  assert (Hshift : shr (Build_shr_record (Zpos (shl j m)) false false) (e - Z.of_nat j)
                     (e - (e - Z.of_nat j))
                   = (Build_shr_record (Zpos m) false false, e)).
  { replace (e - (e - Z.of_nat j)) with (Z.of_nat j) by lia.
    destruct j as [|j].
    - change (Z.of_nat 0) with 0. cbn [shr shl]. f_equal. lia.
    - change (Z.of_nat (S j)) with (Zpos (Pos.of_succ_nat j)) at 2.
      cbn [shr]. rewrite iter_pos_nat, SuccNat2Pos.id_succ.
      replace (S j) with (S j + 0)%nat at 2 by lia. rewrite shr_shl. cbn [shl].
      f_equal. lia. }
  rewrite Hshift. cbn [shr_m loc_of_shr_record round_nearest_even Zdigits2 shr_record_of_loc].
  rewrite Hcanon, Z.sub_diag. cbn [shr shr_m].
  replace (e <=? 128 - 24) with true by (symmetry; apply Z.leb_le; lia).
  reflexivity.
Qed.

(** Rounding a short mantissa: the canonical single-precision number. *)
Lemma binary_round_short (s : bool) (p : positive) (k : nat) (e : Z) :
  let d := Zpos (digits2_pos p) in
  d <= 24 -> -125 <= d + e <= 128 ->
  binary_round 24 128 s (shl k p) (e - Z.of_nat k)
  = S754_finite s (shl (Z.to_nat (24 - d)) p) (d + e - 24).
Proof.
  intros d Hd He. unfold binary_round.
  rewrite digits_shl. fold d.
  replace (d + Z.of_nat k + (e - Z.of_nat k)) with (d + e) by lia.
  assert (Hfexp : fexp 24 128 (d + e) = d + e - 24) by (unfold fexp, emin; lia).
  rewrite Hfexp.
  assert (Hcanon : fexp 24 128 (Zpos (digits2_pos (shl (Z.to_nat (24 - d)) p)) + (d + e - 24))
                   = d + e - 24).
  { rewrite digits_shl. fold d. unfold fexp, emin. lia. }
  unfold shl_align.
  set (i := Z.to_nat (24 - d)) in *.
  destruct (d + e - 24 - (e - Z.of_nat k)) as [|q|q] eqn:Hq.
  - replace k with i by lia.
    replace (e - Z.of_nat i) with (d + e - 24 - Z.of_nat 0) by lia.
    apply (round_aux_exact s (shl i p) (d + e - 24) 0 Hcanon). lia.
  - replace k with (Pos.to_nat q + i)%nat by lia.
    replace (e - Z.of_nat (Pos.to_nat q + i)) with (d + e - 24 - Z.of_nat (Pos.to_nat q))
      by lia.
    rewrite <- shl_shl.
    apply (round_aux_exact s (shl i p) (d + e - 24) (Pos.to_nat q) Hcanon). lia.
  - rewrite pos_iter_shl, shl_shl.
    replace (Pos.to_nat q + k)%nat with i by lia.
    replace (d + e - 24) with (d + e - 24 - Z.of_nat 0) at 1 by lia.
    apply (round_aux_exact s (shl i p) (d + e - 24) 0 Hcanon). lia.
Qed.

Lemma digits_small (p : positive) : Zpos p < 2 ^ 24 -> Zpos (digits2_pos p) <= 24.
Proof.
  intros Hp. pose proof (digits_lower p) as Hlow.
  destruct (Z_le_gt_dec (Zpos (digits2_pos p)) 24) as [|Hgt]; [assumption|].
  assert (2 ^ 24 <= 2 ^ (Zpos (digits2_pos p) - 1)) by (apply Z.pow_le_mono_r; lia). lia.
Qed.

(** The single-precision number of a non-zero integer of magnitude below
    [2^24]: sign, mantissa padded to 24 bits, and a negative exponent. *)
Lemma f32_of_signed (s : bool) (p : positive) :
  Zpos p < 2 ^ 24 ->
  let i := Z.to_nat (24 - Zpos (digits2_pos p)) in
  f32_of_Z (cond_Zopp s (Zpos p)) = S754_finite s (shl i p) (- Z.of_nat i).
Proof.
  intros Hp i. pose proof (digits_small p Hp) as Hd.
  pose proof (binary_round_short s p 0 0) as H. cbn [shl] in H.
  change (Z.of_nat 0) with 0 in H. cbv zeta in H.
  rewrite Z.sub_0_r, Z.add_0_r in H.
  replace (- Z.of_nat i) with (Zpos (digits2_pos p) - 24) by lia.
  destruct s; cbn [cond_Zopp Z.opp]; unfold f32_of_Z, binary_normalize; apply H; lia.
Qed.

(** Rounding an integer of magnitude below [2^24] that carries [k] extra
    zero bits gives the number of that integer. *)
Lemma normalize_integer (z : Z) (k : nat) :
  Z.abs z < 2 ^ 24 ->
  binary_normalize 24 128 (z * 2 ^ Z.of_nat k) (- Z.of_nat k) false = f32_of_Z z.
Proof.
  intros Hz.
  assert (Hround : forall s p, Zpos p < 2 ^ 24 ->
            binary_round 24 128 s (shl k p) (- Z.of_nat k) = f32_of_Z (cond_Zopp s (Zpos p))).
  { intros s p Hp. rewrite f32_of_signed by exact Hp.
    pose proof (digits_small p Hp) as Hd.
    pose proof (binary_round_short s p k 0) as H. cbv zeta in H.
    rewrite Z.add_0_r in H. change (0 - Z.of_nat k) with (- Z.of_nat k) in H.
    rewrite H by lia. f_equal. lia. }
  destruct z as [|p|p].
  - reflexivity.
  - rewrite <- Zpos_shl. cbn [binary_normalize]. apply (Hround false). lia.
  - change (Zneg p) with (- Zpos p) at 1. rewrite Z.mul_opp_l, <- Zpos_shl.
    change (- Zpos (shl k p)) with (Zneg (shl k p)). cbn [binary_normalize].
    apply (Hround true). lia.
Qed.

Lemma shl_align_shl (p : positive) (i : nat) (ez : Z) :
  ez <= - Z.of_nat i ->
  fst (shl_align (shl i p) (- Z.of_nat i) ez) = shl (Z.to_nat (- ez)) p.
Proof.
  intros Hez. unfold shl_align.
  destruct (ez - - Z.of_nat i) as [|r|r] eqn:Hr; cbn [fst].
  - f_equal. lia.
  - lia.
  - rewrite pos_iter_shl, shl_shl. f_equal. lia.
Qed.

Lemma aligned_value (s : bool) (p : positive) (k : nat) :
  cond_Zopp s (Zpos (shl k p)) = cond_Zopp s (Zpos p) * 2 ^ Z.of_nat k.
Proof. rewrite Zpos_shl. destruct s; cbn [cond_Zopp]; lia. Qed.

(** Sums and differences of integers in single precision are exact as
    long as the result has magnitude below [2^24]. *)
Lemma f32_add_aligned (s1 s2 : bool) (p q : positive) (i j : nat) :
  let z := cond_Zopp s1 (Zpos p) + cond_Zopp s2 (Zpos q) in
  Z.abs z < 2 ^ 24 ->
  f32_add (S754_finite s1 (shl i p) (- Z.of_nat i)) (S754_finite s2 (shl j q) (- Z.of_nat j))
  = f32_of_Z z.
Proof.
  intros z Hz. unfold f32_add, SFadd.
  rewrite !shl_align_shl by lia.
  set (k := Z.to_nat (- Z.min (- Z.of_nat i) (- Z.of_nat j))).
  replace (Z.min (- Z.of_nat i) (- Z.of_nat j)) with (- Z.of_nat k) by lia.
  rewrite !aligned_value, <- Z.mul_add_distr_r.
  now apply normalize_integer.
Qed.

Lemma f32_sub_aligned (s1 s2 : bool) (p q : positive) (i j : nat) :
  let z := cond_Zopp s1 (Zpos p) - cond_Zopp s2 (Zpos q) in
  Z.abs z < 2 ^ 24 ->
  f32_sub (S754_finite s1 (shl i p) (- Z.of_nat i)) (S754_finite s2 (shl j q) (- Z.of_nat j))
  = f32_of_Z z.
Proof.
  intros z Hz. unfold f32_sub, SFsub.
  rewrite !shl_align_shl by lia.
  set (k := Z.to_nat (- Z.min (- Z.of_nat i) (- Z.of_nat j))).
  replace (Z.min (- Z.of_nat i) (- Z.of_nat j)) with (- Z.of_nat k) by lia.
  rewrite !aligned_value, <- Z.mul_sub_distr_r.
  now apply normalize_integer.
Qed.

Lemma signed_integer (z : Z) :
  z <> 0 -> exists s p, z = cond_Zopp s (Zpos p) /\ Zpos p = Z.abs z.
Proof.
  destruct z as [|p|p]; intros Hz; [congruence| |].
  - now exists false, p.
  - now exists true, p.
Qed.

Lemma f32_add_exact (a b : Z) :
  Z.abs a < 2 ^ 24 -> Z.abs b < 2 ^ 24 -> Z.abs (a + b) < 2 ^ 24 ->
  f32_add (f32_of_Z a) (f32_of_Z b) = f32_of_Z (a + b).
Proof.
  intros Ha Hb Hsum.
  destruct (Z.eq_dec a 0) as [->|Hna].
  { destruct (Z.eq_dec b 0) as [->|Hnb]; [reflexivity|].
    destruct (signed_integer b Hnb) as (s & q & -> & Hq).
    rewrite Z.add_0_l, f32_of_signed by lia. reflexivity. }
  destruct (signed_integer a Hna) as (s1 & p & -> & Hp).
  destruct (Z.eq_dec b 0) as [->|Hnb].
  { rewrite Z.add_0_r, f32_of_signed by lia. reflexivity. }
  destruct (signed_integer b Hnb) as (s2 & q & -> & Hq).
  rewrite (f32_of_signed s1 p), (f32_of_signed s2 q) by lia.
  now apply f32_add_aligned.
Qed.

Lemma f32_sub_exact (a b : Z) :
  Z.abs a < 2 ^ 24 -> Z.abs b < 2 ^ 24 -> Z.abs (a - b) < 2 ^ 24 ->
  f32_sub (f32_of_Z a) (f32_of_Z b) = f32_of_Z (a - b).
Proof.
  intros Ha Hb Hdiff.
  destruct (Z.eq_dec b 0) as [->|Hnb].
  { rewrite Z.sub_0_r. destruct (Z.eq_dec a 0) as [->|Hna]; [reflexivity|].
    destruct (signed_integer a Hna) as (s & p & -> & Hp).
    rewrite f32_of_signed by lia. reflexivity. }
  destruct (signed_integer b Hnb) as (s2 & q & -> & Hq).
  destruct (Z.eq_dec a 0) as [->|Hna].
  { replace (0 - cond_Zopp s2 (Zpos q)) with (cond_Zopp (negb s2) (Zpos q))
      by (destruct s2; cbn [cond_Zopp negb]; lia).
    rewrite !f32_of_signed by lia. reflexivity. }
  destruct (signed_integer a Hna) as (s1 & p & -> & Hp).
  rewrite (f32_of_signed s1 p), (f32_of_signed s2 q) by lia.
  now apply f32_sub_aligned.
Qed.

Lemma float_eqb_eq (x y : float) : float_eqb x y = true -> x = y.
Proof.
  destruct x as [a|a| |s m e], y as [b|b| |s' m' e']; cbn [float_eqb];
    try discriminate; try reflexivity.
  - intros H. apply Bool.eqb_prop in H. now subst.
  - intros H. apply Bool.eqb_prop in H. now subst.
  - intros H. apply andb_true_iff in H as [H He]. apply andb_true_iff in H as [Hs Hm].
    apply Bool.eqb_prop in Hs. apply Pos.eqb_eq in Hm. apply Z.eqb_eq in He. now subst.
Qed.

Lemma shl_mul (i j : nat) (p q : positive) :
  (shl i p * shl j q)%positive = shl (i + j) (p * q).
Proof.
  induction i as [|i IH]; cbn [shl Nat.add].
  - induction j as [|j IH]; cbn [shl]; [reflexivity|].
    now rewrite Pos.mul_xO_r, IH.
  - change (xO (shl i p) * shl j q)%positive with (xO (shl i p * shl j q)).
    now rewrite IH.
Qed.

(** The square of a deviation between two 12-bit readings is exact. *)
Lemma f32_square_exact (d : Z) :
  -4096 < d < 4096 ->
  f32_mul (f32_of_Z d) (f32_of_Z d) = f32_of_Z (d * d).
Proof.
  intros Hd.
  assert (Hall : forallb (fun n =>
            let d := Z.of_nat n in
            float_eqb (f32_mul (f32_of_Z d) (f32_of_Z d)) (f32_of_Z (d * d))
            && float_eqb (f32_mul (f32_of_Z (- d)) (f32_of_Z (- d))) (f32_of_Z (d * d)))
          (seq 0 4096) = true) by (vm_compute; reflexivity).
  rewrite forallb_forall in Hall.
  specialize (Hall (Z.to_nat (Z.abs d))). cbv zeta in Hall.
  rewrite Z2Nat.id in Hall by lia.
  assert (Hin : In (Z.to_nat (Z.abs d)) (seq 0 4096)) by (apply in_seq; lia).
  apply Hall, andb_true_iff in Hin as [Hpos Hneg].
  apply float_eqb_eq in Hpos, Hneg.
  destruct (Z_le_gt_dec 0 d) as [Hsign|Hsign].
  - rewrite Z.abs_eq in Hpos by exact Hsign. exact Hpos.
  - rewrite Z.abs_neq, Z.opp_involutive in Hneg by lia.
    rewrite Hneg. f_equal. lia.
Qed.

Lemma f32_fma_zero (x : float) :
  f32_fma x x (S754_zero false) = f32_add (f32_mul x x) (S754_zero false).
Proof. destruct x as [[|]|[|]| |s m e]; reflexivity. Qed.

(** So is the fused square-and-add, as long as the sum stays below
    [2^24]. *)
Lemma f32_fma_square (d V : Z) :
  -4096 < d < 4096 -> 0 <= V -> V + d * d < 2 ^ 24 ->
  f32_fma (f32_of_Z d) (f32_of_Z d) (f32_of_Z V) = f32_of_Z (V + d * d).
Proof.
  intros Hd HV Hsum.
  assert (Hsq0 : 0 <= d * d) by nia.
  destruct (Z.eq_dec V 0) as [->|HnV].
  { change (f32_of_Z 0) with (S754_zero false). rewrite f32_fma_zero.
    rewrite f32_square_exact by exact Hd. change (S754_zero false) with (f32_of_Z 0).
    rewrite f32_add_exact by lia. f_equal. lia. }
  destruct (signed_integer V HnV) as ([|] & v & -> & Hv); [cbn [cond_Zopp] in HV; lia|].
  cbn [cond_Zopp] in *.
  pose proof (f32_of_signed false v) as Hshape. cbn [cond_Zopp] in Hshape.
  specialize (Hshape ltac:(lia)). cbv zeta in Hshape.
  destruct (Z.eq_dec d 0) as [->|Hnd].
  { replace (Zpos v + 0 * 0) with (Zpos v) by lia. rewrite Hshape. reflexivity. }
  rewrite Hshape. clear Hshape.
  destruct (signed_integer d Hnd) as (s & p & -> & Hp).
  assert (Hsq : cond_Zopp s (Zpos p) * cond_Zopp s (Zpos p) = Zpos (p * p))
    by (destruct s; cbn [cond_Zopp]; lia).
  rewrite Hsq in *.
  rewrite (f32_of_signed s p) by lia.
  unfold f32_fma. rewrite xorb_nilpotent, shl_mul.
  rewrite <- Z.opp_add_distr, <- Nat2Z.inj_add.
  rewrite (f32_add_aligned false false (p * p) v) by (cbn [cond_Zopp]; lia).
  cbn [cond_Zopp]. f_equal. lia.
Qed.

(** ** Statistics of a batch *)

Lemma fold_left_map_arg {A B C} (f : A -> B -> A) (h : C -> B) (l : list C) (a : A) :
  fold_left f (map h l) a = fold_left (fun acc x => f acc (h x)) l a.
Proof. revert a. induction l as [|x l IH]; intros a; [reflexivity|]. cbn. apply IH. Qed.

(** A loop over the indices of the whole buffer is a loop over its
    samples. *)
Lemma accumulate_samples {A} (g : A -> Z -> A) (samples : list Z) (init : A) :
  length samples = N_SAMPLES ->
  accumulate N_SAMPLES (fun j acc => g acc (nth j samples 0)) init
  = fold_left g samples init.
Proof.
  intros Hlen. unfold accumulate. rewrite <- Hlen.
  rewrite <- (fold_left_map_arg g (fun j => nth j samples 0)).
  now rewrite (map_nth_seq (fun v => v) samples), map_id.
Qed.

Lemma sum_nonneg (l : list Z) : Forall (fun v => 0 <= v) l -> 0 <= sum_Z l.
Proof.
  induction 1 as [|x l Hx _ IHl]; cbn; [lia|]. fold (sum_Z l). lia.
Qed.

Lemma sum_exact (l : list Z) :
  forall s0,
    0 <= s0 ->
    Forall (fun v => 0 <= v) l ->
    s0 + sum_Z l < 2 ^ 24 ->
    fold_left (fun acc v => f32_add acc (f32_of_Z v)) l (f32_of_Z s0)
    = f32_of_Z (s0 + sum_Z l).
Proof.
  induction l as [|v l IH]; intros s0 Hs0 Hpos Hsum.
  - cbn. now rewrite Z.add_0_r.
  - apply Forall_cons in Hpos as [Hv Hpos]. cbn [fold_left sum_Z fold_right] in *.
    fold (sum_Z l) in *.
    pose proof (sum_nonneg l Hpos) as Hl.
    rewrite f32_add_exact by lia.
    rewrite IH by (try assumption; lia). f_equal. lia.
Qed.

Lemma sum_bound (l : list Z) :
  Forall adc_reading l -> 0 <= sum_Z l <= 4095 * Z.of_nat (length l).
Proof.
  induction 1 as [|v l Hv _ IH]; [cbn; lia|].
  unfold adc_reading in Hv. cbn [sum_Z fold_right length]. fold (sum_Z l). lia.
Qed.

Lemma sum_repeat (c : Z) (n : nat) : sum_Z (repeat c n) = Z.of_nat n * c.
Proof.
  induction n as [|n IH]; [reflexivity|].
  cbn [repeat sum_Z fold_right]. fold (sum_Z (repeat c n)). rewrite IH. lia.
Qed.

(** For 12-bit readings the accumulated sum is the exact sum, so [mean]
    is the rounded quotient of the exact sum by [N_SAMPLES]. *)
Lemma batch_mean_exact (samples : list Z) :
  length samples = N_SAMPLES ->
  Forall adc_reading samples ->
  batch_mean samples
  = f32_div (f32_of_Z (sum_Z samples)) (f32_of_Z (Z.of_nat N_SAMPLES)).
Proof.
  intros Hlen Hadc. unfold batch_mean.
  rewrite (accumulate_samples (fun acc v => f32_add acc (f32_of_Z v))) by exact Hlen.
  pose proof (sum_bound samples Hadc) as Hsum. rewrite Hlen in Hsum.
  change f32_zero with (f32_of_Z 0). rewrite sum_exact.
  - reflexivity.
  - lia.
  - eapply Forall_impl; [exact Hadc|]. unfold adc_reading. intros; lia.
  - change (Z.of_nat N_SAMPLES) with 3800 in Hsum. lia.
Qed.

(** The quotient of [N_SAMPLES * m] by [N_SAMPLES] is [m], for every
    reading [m]. *)
Lemma integer_mean_quotient (m : Z) :
  adc_reading m ->
  f32_div (f32_of_Z (Z.of_nat N_SAMPLES * m)) (f32_of_Z (Z.of_nat N_SAMPLES)) = f32_of_Z m.
Proof.
  intros Hm.
  assert (Hall : forallb (fun n =>
            float_eqb (f32_div (f32_of_Z (3800 * Z.of_nat n)) (f32_of_Z 3800))
                      (f32_of_Z (Z.of_nat n)))
          (seq 0 4096) = true) by (vm_compute; reflexivity).
  rewrite forallb_forall in Hall. unfold adc_reading in Hm.
  specialize (Hall (Z.to_nat m)). rewrite Z2Nat.id in Hall by lia.
  apply float_eqb_eq, Hall, in_seq. lia.
Qed.

(** A batch of readings whose sum is [N_SAMPLES * m] has the mean [m]. *)
Lemma integer_mean (samples : list Z) (m : Z) :
  length samples = N_SAMPLES ->
  Forall adc_reading samples ->
  sum_Z samples = Z.of_nat N_SAMPLES * m ->
  adc_reading m /\ batch_mean samples = f32_of_Z m.
Proof.
  intros Hlen Hadc Hsum.
  assert (Hm : adc_reading m).
  { pose proof (sum_bound samples Hadc) as Hb. rewrite Hlen, Hsum in Hb.
    change (Z.of_nat N_SAMPLES) with 3800 in Hb. unfold adc_reading. lia. }
  split; [exact Hm|].
  rewrite batch_mean_exact, Hsum by assumption. now apply integer_mean_quotient.
Qed.

Lemma f32_of_Z_value (c : Z) : 0 <= c < 2 ^ 24 -> float_is_ratio (f32_of_Z c) c 1.
Proof.
  intros Hc. destruct c as [|p|p]; [reflexivity| |lia].
  pose proof (f32_of_signed false p) as H. cbn [cond_Zopp] in H. rewrite H by lia.
  pose proof (digits_small p ltac:(lia)) as Hd.
  cbn [float_is_ratio]. split; [lia|]. rewrite Zpos_shl.
  rewrite Z.mul_1_r. do 2 f_equal. lia.
Qed.

Lemma sum_sq_cons (m v : Z) (l : list Z) :
  sum_sq m (v :: l) = (v - m) * (v - m) + sum_sq m l.
Proof. reflexivity. Qed.

Lemma sum_sq_nonneg (m : Z) (l : list Z) : 0 <= sum_sq m l.
Proof.
  induction l as [|v l IH]; [cbn; lia|]. rewrite sum_sq_cons.
  pose proof (Z.square_nonneg (v - m)). lia.
Qed.

Lemma sum_sq_repeat (c : Z) (n : nat) : sum_sq c (repeat c n) = 0.
Proof.
  induction n as [|n IH]; [reflexivity|].
  cbn [repeat]. rewrite sum_sq_cons, IH. lia.
Qed.

(** One round of the second pass on integers: the squared deviation is
    added exactly, whether or not the multiplication is fused with the
    addition. *)
Lemma variance_step_exact (fused : bool) (V d : Z) :
  -4096 < d < 4096 -> 0 <= V -> V + d * d < 2 ^ 24 ->
  variance_step fused (f32_of_Z V) (f32_of_Z d) = f32_of_Z (V + d * d).
Proof.
  intros Hd HV Hsum. assert (0 <= d * d) by nia.
  destruct fused; cbn [variance_step].
  - now apply f32_fma_square.
  - rewrite f32_square_exact by exact Hd. apply f32_add_exact; lia.
Qed.

Lemma variance_exact (fused : bool) (m : Z) (l : list Z) :
  adc_reading m ->
  Forall adc_reading l ->
  forall V,
    0 <= V ->
    V + sum_sq m l < 2 ^ 24 ->
    fold_left (fun variance v =>
                 variance_step fused variance (f32_sub (f32_of_Z v) (f32_of_Z m)))
              l (f32_of_Z V)
    = f32_of_Z (V + sum_sq m l).
Proof.
  intros Hm Hadc. unfold adc_reading in Hm.
  induction Hadc as [|v l Hv _ IH]; intros V HV Hsum.
  - cbn. now rewrite Z.add_0_r.
  - unfold adc_reading in Hv. rewrite sum_sq_cons in Hsum |- *.
    pose proof (sum_sq_nonneg m l) as Hrest.
    pose proof (Z.square_nonneg (v - m)) as Hsq.
    cbn [fold_left]. rewrite f32_sub_exact by lia.
    rewrite variance_step_exact by lia.
    rewrite IH by lia. f_equal. lia.
Qed.

(** With an integer mean [m] and a sum of squared deviations below
    [2^24], the second pass is exact: [stddev] is the square root of the
    quotient of that sum by [N_SAMPLES - 1]. *)
Lemma batch_stddev_exact (fused : bool) (samples : list Z) (m : Z) :
  length samples = N_SAMPLES ->
  Forall adc_reading samples ->
  adc_reading m ->
  sum_sq m samples < 2 ^ 24 ->
  batch_stddev fused samples (f32_of_Z m)
  = sqrt_to_float (f32_div (f32_of_Z (sum_sq m samples))
                           (f32_of_Z (Z.of_nat N_SAMPLES - 1))).
Proof.
  intros Hlen Hadc Hm Hsq. unfold batch_stddev.
  rewrite (accumulate_samples
             (fun variance v =>
                variance_step fused variance (f32_sub (f32_of_Z v) (f32_of_Z m))))
    by exact Hlen.
  change f32_zero with (f32_of_Z 0).
  rewrite variance_exact by (try assumption; lia).
  rewrite f32_sub_exact by (change (Z.of_nat N_SAMPLES) with 3800; lia).
  reflexivity.
Qed.

(** The quotient of [(N_SAMPLES - 1) * v] by [N_SAMPLES - 1] is [v]. *)
Lemma integer_variance_quotient (v : Z) :
  0 <= v -> (Z.of_nat N_SAMPLES - 1) * v < 2 ^ 24 ->
  f32_div (f32_of_Z ((Z.of_nat N_SAMPLES - 1) * v)) (f32_of_Z (Z.of_nat N_SAMPLES - 1))
  = f32_of_Z v.
Proof.
  intros Hv Hbound. change (Z.of_nat N_SAMPLES - 1) with 3799 in *.
  assert (Hall : forallb (fun n =>
            float_eqb (f32_div (f32_of_Z (3799 * Z.of_nat n)) (f32_of_Z 3799))
                      (f32_of_Z (Z.of_nat n)))
          (seq 0 4417) = true) by (vm_compute; reflexivity).
  rewrite forallb_forall in Hall.
  specialize (Hall (Z.to_nat v)). rewrite Z2Nat.id in Hall by lia.
  apply float_eqb_eq, Hall, in_seq. lia.
Qed.

(** The square root of an integer variance is rounded correctly: the
    variance lies between the squares of the two midpoints next to the
    result. *)
Lemma sqrt_of_integer_variance (v : Z) :
  0 <= v <= 4416 -> sqrt_within 1 (sqrt_to_float (f32_of_Z v)) v = true.
Proof.
  intros Hv.
  assert (Hall : forallb (fun n =>
            sqrt_within 1 (sqrt_to_float (f32_of_Z (Z.of_nat n))) (Z.of_nat n))
          (seq 0 4417) = true) by (vm_compute; reflexivity).
  rewrite forallb_forall in Hall.
  specialize (Hall (Z.to_nat v)). rewrite Z2Nat.id in Hall by lia.
  apply Hall, in_seq. lia.
Qed.

(** The square root of a perfect square is its root. *)
Lemma sqrt_of_square (k : Z) :
  0 <= k <= 66 -> sqrt_to_float (f32_of_Z (k * k)) = f32_of_Z k.
Proof.
  intros Hk.
  assert (Hall : forallb (fun n =>
            float_eqb (sqrt_to_float (f32_of_Z (Z.of_nat n * Z.of_nat n)))
                      (f32_of_Z (Z.of_nat n)))
          (seq 0 67) = true) by (vm_compute; reflexivity).
  rewrite forallb_forall in Hall.
  specialize (Hall (Z.to_nat k)). rewrite Z2Nat.id in Hall by lia.
  apply float_eqb_eq, Hall, in_seq. lia.
Qed.

Lemma ramp_batch :
  batch_mean (map Z.of_nat (seq 0 N_SAMPLES)) = S754_finite false 15560704 (-13).
Proof.
  rewrite batch_mean_exact.
  - replace (sum_Z (map Z.of_nat (seq 0 N_SAMPLES))) with 7218100
      by (vm_compute; reflexivity).
    vm_compute. reflexivity.
  - now rewrite length_map, length_seq.
  - apply List.Forall_forall. intros v Hv. apply in_map_iff in Hv as (n & <- & Hn).
    apply in_seq in Hn. unfold adc_reading, N_SAMPLES in *. lia.
Qed.

(** The second pass over the ramp, with either kind of rounding. *)
Lemma ramp_stddev (fused : bool) :
  batch_stddev fused (map Z.of_nat (seq 0 N_SAMPLES)) (S754_finite false 15560704 (-13))
  = S754_finite false 8987525 (-13).
Proof. destruct fused; vm_compute; reflexivity. Qed.

(** Six readings of 1 among zeros: the mean is not an integer, the
    squared deviations are rounded, and the two kinds of rounding part in
    the last bit of [stddev]. *)
Lemma uneven_batch_mean :
  batch_mean (repeat 1 6 ++ repeat 0 (N_SAMPLES - 6)) = S754_finite false 13563055 (-33).
Proof.
  rewrite batch_mean_exact.
  - replace (sum_Z (repeat 1 6 ++ repeat 0 (N_SAMPLES - 6))) with 6
      by (vm_compute; reflexivity).
    vm_compute. reflexivity.
  - reflexivity.
  - apply Forall_app. split; apply List.Forall_forall; intros v Hv;
      apply repeat_spec in Hv; subst v; unfold adc_reading; lia.
Qed.

Lemma uneven_batch_stddev (fused : bool) :
  batch_stddev fused (repeat 1 6 ++ repeat 0 (N_SAMPLES - 6))
    (S754_finite false 13563055 (-33))
  = S754_finite false (if fused then 10659154 else 10659155) (-28).
Proof. destruct fused; vm_compute; reflexivity. Qed.

(** C4. With the 12-bit readings of the converter in the buffer, the ['b']
    command stores the batch and reports [mean] and [stddev], the second
    pass using the [mean] that the first pass completed.  The sum of the
    first pass is exact, so [mean] is the rounded quotient of the sum of
    the samples by [N].  When that quotient is an integer [m] and the sum
    of the squared deviations from [m] stays below [2^24], the second pass
    is exact as well, with or without a fused multiply-add: [stddev] is
    the square root of the rounded quotient of that sum by [N - 1]; when
    this quotient is an integer [v], [stddev] is a single-precision number
    nearest to the square root of [v], and it is [k] when [v] is [k * k].
    For a constant batch [c], [mean] is [c] and [stddev] is [0]; for the
    batch [0, 1, ..., N - 1], whose sample variance is [1203650], [mean] is
    [(N - 1) / 2] and [stddev] is [8987525 / 2^13 = 1097.11], within three
    half units in the last place of the square root of the variance.
    Where the mean is not an integer the fused multiply-add can show: for
    six readings of 1 followed by zeros, [mean] is [6 / N] rounded and
    [stddev] is [10659155 / 2^28 = 0.03971], or [10659154 / 2^28] when the
    multiplication is fused with the addition. *)
Theorem batch_statistics :
  forall (fmt_g : float -> list ascii) (args : list ascii) (w : World)
         (highs lows : nat) (later : list bool) (t0 t1 : Z) (ts vals more : list Z),
    icg_levels w = repeat true highs ++ false :: repeat false lows ++ true :: later ->
    timer w = t0 :: t1 :: ts ->
    adc_fifo w = vals ++ more ->
    length vals = N_SAMPLES ->
    length (adc_samples w) = N_SAMPLES ->
    Forall adc_reading vals ->
    let mean := batch_mean vals in
    let stddev := batch_stddev (fp_contract w) vals mean in
    (exists w',
        interpret_command fmt_g ("b"%char :: args) w = Some (tt, w')
        /\ adc_samples w' = vals
        /\ stdout w'
           = stdout w ++ line (chars "b " ++ fmt_g mean ++ chars " " ++ fmt_g stddev
                               ++ chars " " ++ decimal ((t1 - t0) mod 2 ^ 32)))
    /\ mean = f32_div (f32_of_Z (sum_Z vals)) (f32_of_Z (Z.of_nat N_SAMPLES))
    /\ (forall m,
          sum_Z vals = Z.of_nat N_SAMPLES * m ->
          mean = f32_of_Z m
          /\ float_is_ratio mean m 1
          /\ (sum_sq m vals < 2 ^ 24 ->
              stddev = sqrt_to_float (f32_div (f32_of_Z (sum_sq m vals))
                                              (f32_of_Z (Z.of_nat N_SAMPLES - 1)))
              /\ forall v,
                   sum_sq m vals = (Z.of_nat N_SAMPLES - 1) * v ->
                   stddev = sqrt_to_float (f32_of_Z v)
                   /\ sqrt_within 1 stddev v = true
                   /\ forall k, 0 <= k -> v = k * k -> stddev = f32_of_Z k))
    /\ (forall c,
          vals = repeat c N_SAMPLES ->
          mean = f32_of_Z c /\ float_is_ratio mean c 1 /\ stddev = f32_zero)
    /\ (vals = map Z.of_nat (seq 0 N_SAMPLES) ->
        float_is_ratio mean (Z.of_nat N_SAMPLES - 1) 2
        /\ sum_sq (Z.of_nat N_SAMPLES - 1) (map (Z.mul 2) vals)
           = 4 * (Z.of_nat N_SAMPLES - 1) * 1203650
        /\ stddev = S754_finite false 8987525 (-13)
        /\ sqrt_within 3 stddev 1203650 = true)
    /\ (vals = repeat 1 6 ++ repeat 0 (N_SAMPLES - 6) ->
        mean = f32_div (f32_of_Z 6) (f32_of_Z (Z.of_nat N_SAMPLES))
        /\ mean = S754_finite false 13563055 (-33)
        /\ stddev = S754_finite false (if fp_contract w then 10659154 else 10659155) (-28)).
Proof.
  intros fmt_g args w highs lows later t0 t1 ts vals more Hicg Htimer Hfifo Hvals Hbuf Hadc
         mean stddev.
  assert (Hinteger : forall m,
            sum_Z vals = Z.of_nat N_SAMPLES * m ->
            mean = f32_of_Z m
            /\ float_is_ratio mean m 1
            /\ (sum_sq m vals < 2 ^ 24 ->
                stddev = sqrt_to_float (f32_div (f32_of_Z (sum_sq m vals))
                                                (f32_of_Z (Z.of_nat N_SAMPLES - 1)))
                /\ forall v,
                     sum_sq m vals = (Z.of_nat N_SAMPLES - 1) * v ->
                     stddev = sqrt_to_float (f32_of_Z v)
                     /\ sqrt_within 1 stddev v = true
                     /\ forall k, 0 <= k -> v = k * k -> stddev = f32_of_Z k)).
  { intros m Hsum.
    destruct (integer_mean vals m Hvals Hadc Hsum) as [Hm Hmean].
    split; [exact Hmean|]. split.
    { subst mean. rewrite Hmean. apply f32_of_Z_value. unfold adc_reading in Hm. lia. }
    intros Hsq.
    assert (Hdev : stddev = sqrt_to_float (f32_div (f32_of_Z (sum_sq m vals))
                                                  (f32_of_Z (Z.of_nat N_SAMPLES - 1)))).
    { subst stddev mean. rewrite Hmean. now apply batch_stddev_exact. }
    split; [exact Hdev|]. intros v Hv.
    pose proof (sum_sq_nonneg m vals) as Hnonneg.
    assert (Hrange : 0 <= v <= 4416).
    { rewrite Hv in Hsq, Hnonneg. change (Z.of_nat N_SAMPLES - 1) with 3799 in *. lia. }
    assert (Hroot : stddev = sqrt_to_float (f32_of_Z v)).
    { rewrite Hdev, Hv, integer_variance_quotient; [reflexivity|lia|].
      rewrite <- Hv. exact Hsq. }
    split; [exact Hroot|]. split.
    - rewrite Hroot. now apply sqrt_of_integer_variance.
    - intros k Hk Hkk. rewrite Hroot, Hkk. apply sqrt_of_square. nia. }
  split; [|split; [|split; [|split; [|split]]]].
  - destruct (batch_run fmt_g args highs lows later t0 t1 ts vals more w)
      as (w' & Hrun & _ & Hsamples & Hout & _); try assumption.
    exists w'. split; [exact Hrun|]. split; [exact Hsamples|]. exact Hout.
  - now apply batch_mean_exact.
  - exact Hinteger.
  - intros c Hc.
    destruct (Hinteger c) as (Hmean & Hratio & Hdev).
    { rewrite Hc. apply sum_repeat. }
    split; [exact Hmean|]. split; [exact Hratio|].
    destruct Hdev as [Hdev _].
    { rewrite Hc, sum_sq_repeat. lia. }
    rewrite Hdev, Hc, sum_sq_repeat. reflexivity.
  - intros Hramp.
    assert (Hmean : mean = S754_finite false 15560704 (-13))
      by (subst mean; rewrite Hramp; exact ramp_batch).
    assert (Hdev : stddev = S754_finite false 8987525 (-13))
      by (subst stddev; rewrite Hmean, Hramp; apply ramp_stddev).
    split; [|split; [|split]].
    + rewrite Hmean. cbn [float_is_ratio]. split; [lia | reflexivity].
    + rewrite Hramp. vm_compute. reflexivity.
    + exact Hdev.
    + rewrite Hdev. vm_compute. reflexivity.
  - intros Huneven.
    assert (Hmean : mean = S754_finite false 13563055 (-33))
      by (subst mean; rewrite Huneven; exact uneven_batch_mean).
    split; [|split].
    + rewrite Hmean. vm_compute. reflexivity.
    + exact Hmean.
    + subst stddev. rewrite Hmean, Huneven. apply uneven_batch_stddev.
Qed.

(** Outside the range of the converter the first pass rounds: a buffer of
    65535s would give a mean of 65535.93 (16777199 / 256), not 65535
    (16776960 / 256). *)
Remark mean_beyond_converter_range :
  batch_mean (repeat 65535 N_SAMPLES) = S754_finite false 16777199 (-8)
  /\ f32_of_Z 65535 = S754_finite false 16776960 (-8).
Proof. split; vm_compute; reflexivity. Qed.

(** So the fused multiply-add does change what the command prints. *)
Remark contraction_shows_in_the_last_bit :
  let samples := repeat 1 6 ++ repeat 0 (N_SAMPLES - 6) in
  batch_stddev false samples (batch_mean samples)
  <> batch_stddev true samples (batch_mean samples).
Proof.
  cbv zeta. rewrite uneven_batch_mean, !uneven_batch_stddev. discriminate.
Qed.

(** * Further properties of the firmware *)

(** ** Line editing in [getstr] *)

Lemma char_is_false (c d : ascii) : c <> d -> char_is c d = false.
Proof. intros H. now apply Ascii.eqb_neq. Qed.

Lemma removelast_take {A} (n : nat) (l : list A) :
  (n < length l)%nat -> removelast (take (S n) l) = take n l.
Proof. apply removelast_firstn. Qed.

Lemma getstr_step_backspace (nbuf : Z) (st : line_state) :
  getstr_step nbuf BS st
  = (if ls_i st >? 0 then mkLine (ls_buf st) (ls_i st - 1) (ls_writes st) else st, false).
Proof. reflexivity. Qed.

Lemma getstr_step_return (nbuf : Z) (st : line_state) :
  getstr_step nbuf CR st = (st, false).
Proof. reflexivity. Qed.

Lemma getstr_step_other (nbuf : Z) (c : ascii) (st : line_state) :
  c <> NL -> c <> CR -> c <> BS ->
  getstr_step nbuf c st
  = (if ls_i st <? nbuf - 1
     then mkLine (<[Z.to_nat (ls_i st) := c]> (ls_buf st)) (ls_i st + 1)
            (ls_writes st ++ [ls_i st])
     else st, false).
Proof.
  intros Hnl Hcr Hbs. unfold getstr_step.
  rewrite (char_is_false c NL Hnl), (char_is_false c CR Hcr), (char_is_false c BS Hbs).
  cbn [negb andb]. now destruct (ls_i st <? nbuf - 1).
Qed.

(** Only the new-line ends the loop. *)
Lemma getstr_step_edits_done (nbuf : Z) (c : ascii) (st : line_state) :
  c <> NL -> exists st', getstr_step nbuf c st = (st', false).
Proof.
  intros Hnl. unfold getstr_step. rewrite (char_is_false c NL Hnl).
  eexists. reflexivity.
Qed.

(** One key that is not the new-line: the state follows [edit_step]. *)
Lemma getstr_step_edits (nbuf : Z) (c : ascii) (st : line_state) (typed : list ascii) :
  c <> NL ->
  holds_line nbuf st typed ->
  exists st',
    getstr_step nbuf c st = (st', false)
    /\ holds_line nbuf st' (edit_step nbuf typed c).
Proof.
  intros Hnl (Hi & Htake & Hlen & Hfit). unfold edit_step.
  destruct (Ascii.eqb_spec c BS) as [-> | Hbs].
  - change (char_is BS BS) with true. cbv iota. rewrite getstr_step_backspace.
    eexists. split; [reflexivity|].
    destruct typed as [|t typed _] using rev_ind.
    + cbn [length] in Hi.
      replace (ls_i st >? 0) with false
        by (symmetry; rewrite Z.gtb_ltb; apply Z.ltb_ge; lia).
      exact (conj Hi (conj Htake (conj Hlen Hfit))).
    + rewrite length_app in *. cbn [length] in *.
      replace (ls_i st >? 0) with true by (symmetry; apply Z.gtb_lt; lia).
      rewrite removelast_last.
      unfold holds_line. cbn [ls_i ls_buf]. repeat split; try lia; try assumption.
      rewrite <- (removelast_take (length typed) (ls_buf st)) by lia.
      replace (S (length typed)) with (length typed + 1)%nat by lia.
      rewrite Htake. apply removelast_last.
  - rewrite (char_is_false c BS Hbs).
    destruct (Ascii.eqb_spec c CR) as [-> | Hcr].
    + change (char_is CR CR) with true. cbv iota. rewrite getstr_step_return.
      eexists. split; [reflexivity|]. exact (conj Hi (conj Htake (conj Hlen Hfit))).
    + rewrite (char_is_false c CR Hcr), getstr_step_other by assumption.
      rewrite Hi. eexists. split; [reflexivity|].
      destruct (Z.of_nat (length typed) <? nbuf - 1) eqn:Hroom.
      * apply Z.ltb_lt in Hroom.
        unfold holds_line. cbn [ls_i ls_buf].
        rewrite Nat2Z.id, length_app, length_insert. cbn [length].
        repeat split; try lia.
        replace (length typed + 1)%nat with (S (length typed)) by lia.
        rewrite (take_S_r _ _ c) by (apply list_lookup_insert_eq; lia).
        rewrite take_insert_ge by lia. now rewrite Htake.
      * exact (conj Hi (conj Htake (conj Hlen Hfit))).
Qed.

(** The loop over the keys of a line and the new-line that ends it. *)
Lemma getstr_loop_edits (nbuf : Z) (keys : list ascii) :
  ~ In NL keys ->
  forall st typed rest,
    holds_line nbuf st typed ->
    exists st',
      getstr_loop nbuf (keys ++ NL :: rest) st = Some (st', rest)
      /\ ls_i st' = Z.of_nat (length (fold_left (edit_step nbuf) keys typed))
      /\ ls_buf st' = fold_left (edit_step nbuf) keys typed
                      ++ NUL :: drop (S (length (fold_left (edit_step nbuf) keys typed)))
                                  (ls_buf st').
Proof.
  induction keys as [|c keys IH]; intros Hnl st typed rest Hst.
  - cbn [app getstr_loop fold_left]. rewrite getstr_step_newline.
    destruct Hst as (Hi & Htake & Hlen & Hfit).
    eexists. split; [reflexivity|]. unfold store_char. cbn [ls_i ls_buf].
    split; [exact Hi|]. rewrite Hi, Nat2Z.id.
    rewrite <- (take_drop (length typed) (<[length typed:=NUL]> (ls_buf st))) at 1.
    rewrite take_insert_ge, Htake by lia. f_equal.
    rewrite <- (take_drop 1 (drop _ _)) at 1. rewrite drop_drop.
    replace (length typed + 1)%nat with (S (length typed)) by lia. f_equal.
    rewrite drop_insert_ge, Nat.sub_diag by lia.
    destruct (drop (length typed) (ls_buf st)) as [|x tail] eqn:Hd; [|reflexivity].
    apply (f_equal length) in Hd. rewrite length_drop in Hd. cbn in Hd. lia.
  - cbn [app getstr_loop fold_left].
    destruct (getstr_step_edits nbuf c st typed) as (st1 & Hstep & Hst1);
      [intros ->; apply Hnl; now left | exact Hst |].
    rewrite Hstep. apply IH; [|exact Hst1]. intros Hin. apply Hnl. now right.
Qed.

Lemma cstring_before_nul (l tail : list ascii) :
  ~ In NUL l -> cstring (l ++ NUL :: tail) = l.
Proof.
  induction l as [|c l IH]; intros Hnul; [reflexivity|].
  cbn [app cstring]. rewrite char_is_false by (intros ->; apply Hnul; now left).
  f_equal. apply IH. intros H. apply Hnul. now right.
Qed.

Lemma holds_empty_line (nbuf : Z) (buf : list ascii) :
  1 <= nbuf -> length buf = Z.to_nat nbuf -> holds_line nbuf (mkLine buf 0 []) [].
Proof. intros Hn Hlen. unfold holds_line. cbn. repeat split; try assumption; lia. Qed.

(** X1. [getstr] returns the line as the user has edited it: for keys
    without a new-line followed by a new-line, the buffer holds
    [edit_line nbuf keys] followed by the terminator, the result is its
    length, and the input after the new-line is left for the next call. *)
Theorem getstr_returns_the_edited_line :
  forall (nbuf : Z) (keys rest : list ascii) (w : World),
    1 <= nbuf ->
    length (bufA w) = Z.to_nat nbuf ->
    ~ In NL keys ->
    stdin w = keys ++ NL :: rest ->
    exists w' tail,
      getstr nbuf w = Some (Z.of_nat (length (edit_line nbuf keys)), w')
      /\ stdin w' = rest
      /\ bufA w' = edit_line nbuf keys ++ NUL :: tail
      /\ length (bufA w') = Z.to_nat nbuf
      /\ Z.of_nat (length (edit_line nbuf keys)) <= nbuf - 1
      /\ (~ In NUL (edit_line nbuf keys) -> cstring (bufA w') = edit_line nbuf keys).
Proof.
  intros nbuf keys rest w Hn Hlen Hnl Hin.
  destruct (getstr_loop_edits nbuf keys Hnl (mkLine (bufA w) 0 []) [] rest
              (holds_empty_line nbuf (bufA w) Hn Hlen))
    as (st & Hrun & Hi & Hbuf).
  fold (edit_line nbuf keys) in Hi, Hbuf.
  assert (Hok : line_ok nbuf st).
  { eapply (getstr_loop_keeps nbuf Hn); [|exact Hrun].
    unfold line_ok. cbn [ls_i ls_buf ls_writes]. repeat split; try lia; try assumption.
    constructor. }
  destruct Hok as (Hrange & Hlen' & _).
  exists (set_stdin rest (set_bufA (ls_buf st) w)),
         (drop (S (length (edit_line nbuf keys))) (ls_buf st)).
  unfold getstr, getstr_run. rewrite Hin, Hrun, Hi.
  split; [reflexivity|]. world_fields.
  split; [reflexivity|]. split; [exact Hbuf|]. split; [exact Hlen'|].
  split; [lia|]. intros Hnul. rewrite Hbuf. now apply cstring_before_nul.
Qed.

Lemma getstr_loop_skips_return (nbuf : Z) (before after : list ascii) :
  ~ In NL before ->
  forall st,
    getstr_loop nbuf (before ++ CR :: after) st = getstr_loop nbuf (before ++ after) st.
Proof.
  induction before as [|c before IH]; intros Hnl st.
  - cbn [app getstr_loop]. now rewrite getstr_step_return.
  - cbn [app getstr_loop].
    assert (Hc : c <> NL) by (intros ->; apply Hnl; now left).
    destruct (getstr_step_edits_done nbuf c st Hc) as (st1 & ->).
    apply IH. intros H. apply Hnl. now right.
Qed.

(** X2. Keys without effect: a carriage return typed in a line, and a
    backspace typed on an empty line, change nothing of what [getstr]
    returns and stores. *)
Theorem getstr_skips_returns_and_leading_backspaces :
  forall (nbuf : Z) (before after : list ascii) (w : World),
    ~ In NL before ->
    getstr nbuf (set_stdin (before ++ CR :: after) w)
    = getstr nbuf (set_stdin (before ++ after) w)
    /\ getstr nbuf (set_stdin (BS :: after) w) = getstr nbuf (set_stdin after w).
Proof.
  intros nbuf before after w Hnl. unfold getstr, getstr_run. world_fields. split.
  - rewrite getstr_loop_skips_return by exact Hnl.
    now destruct (getstr_loop nbuf (before ++ after) _) as [[st rest]|].
  - cbn [getstr_loop]. rewrite getstr_step_backspace. cbn [ls_i Z.gtb Z.compare].
    now destruct (getstr_loop nbuf after _) as [[st rest]|].
Qed.

Lemma in_take {A} (x : A) (n : nat) (l : list A) : In x (take n l) -> In x l.
Proof.
  revert l. induction n as [|n IH]; intros [|y l]; cbn; try tauto.
  intros [-> | H]; [now left | right; now apply IH].
Qed.

Lemma edit_plain_line (nbuf : Z) (l : list ascii) :
  Forall plain_char l ->
  forall typed,
    Z.of_nat (length typed) <= nbuf - 1 ->
    fold_left (edit_step nbuf) l typed = take (Z.to_nat (nbuf - 1)) (typed ++ l).
Proof.
  induction 1 as [|c l (Hnl & Hcr & Hbs & _) _ IH]; intros typed Hfit.
  - cbn [fold_left]. rewrite app_nil_r. symmetry. apply take_ge. lia.
  - cbn [fold_left]. unfold edit_step at 2.
    rewrite (char_is_false c BS Hbs), (char_is_false c CR Hcr).
    destruct (Z.of_nat (length typed) <? nbuf - 1) eqn:Hroom.
    + apply Z.ltb_lt in Hroom. rewrite IH by (rewrite length_app; cbn [length]; lia).
      now rewrite <- app_assoc.
    + apply Z.ltb_ge in Hroom. rewrite IH by exact Hfit.
      rewrite !take_app_length' by lia. reflexivity.
Qed.

(** X3. A line of plain characters longer than the buffer is cut, without
    any error: [getstr] keeps the first [nbuf - 1] characters, returns that
    count, and still consumes the input up to the new-line. *)
Theorem getstr_truncates_long_lines :
  forall (nbuf : Z) (l rest : list ascii) (w : World),
    1 <= nbuf ->
    length (bufA w) = Z.to_nat nbuf ->
    Forall plain_char l ->
    stdin w = l ++ NL :: rest ->
    exists w',
      getstr nbuf w = Some (Z.min (Z.of_nat (length l)) (nbuf - 1), w')
      /\ cstring (bufA w') = take (Z.to_nat (nbuf - 1)) l
      /\ stdin w' = rest.
Proof.
  intros nbuf l rest w Hn Hlen Hplain Hin.
  assert (Hnl : ~ In NL l).
  { intros H. rewrite List.Forall_forall in Hplain. now destruct (Hplain NL H) as (Hne & _). }
  destruct (getstr_loop_edits nbuf l Hnl (mkLine (bufA w) 0 []) [] rest
              (holds_empty_line nbuf (bufA w) Hn Hlen))
    as (st & Hrun & Hi & Hbuf).
  rewrite (edit_plain_line nbuf l Hplain []) in Hi, Hbuf by (cbn; lia).
  cbn [app] in Hi, Hbuf.
  exists (set_stdin rest (set_bufA (ls_buf st) w)).
  unfold getstr, getstr_run. rewrite Hin, Hrun, Hi. world_fields.
  split; [|split; [|reflexivity]].
  - do 2 f_equal. rewrite length_take. lia.
  - rewrite Hbuf. apply cstring_before_nul. intros Hnul.
    apply in_take in Hnul.
    rewrite List.Forall_forall in Hplain.
    now destruct (Hplain NUL Hnul) as (_ & _ & _ & Hne).
Qed.


(** ** The loop of [main] *)

(** X4. A line that is empty once edited (nothing typed, only carriage
    returns, everything backspaced) makes [main] do nothing: no command is
    interpreted, nothing is printed, no hardware is touched; the loop goes
    on with the input after the new-line. *)
Theorem main_ignores_empty_lines :
  forall (fmt_g : float -> list ascii) (k : nat) (keys rest : list ascii) (w : World),
    ~ In NL keys ->
    edit_line NBUFA keys = [] ->
    length (bufA w) = Z.to_nat NBUFA ->
    stdin w = keys ++ NL :: rest ->
    exists buf,
      main_loop fmt_g (S k) w = main_loop fmt_g k (set_stdin rest (set_bufA buf w)).
Proof.
  intros fmt_g k keys rest w Hnl Hempty Hlen Hin.
  destruct (getstr_loop_edits NBUFA keys Hnl (mkLine (bufA w) 0 []) [] rest)
    as (st & Hrun & Hi & _).
  { apply holds_empty_line; [unfold NBUFA; lia | exact Hlen]. }
  fold (edit_line NBUFA keys) in Hi. rewrite Hempty in Hi. cbn [length Z.of_nat] in Hi.
  exists (ls_buf st). cbn [main_loop]. unfold bind at 1 2. unfold getstr, getstr_run.
  rewrite Hin, Hrun, Hi. reflexivity.
Qed.

(** ** The unknown command *)

(** X5. A command code the interpreter does not know is answered by the
    code and [error: Unknown command]; apart from this line and the
    indicator, the command leaves everything as it was: no bus write, no
    peripheral read, the samples, the message bytes and the LED override
    unchanged. *)
Theorem unknown_command_reports_error :
  forall (fmt_g : float -> list ascii) (code : ascii) (args : list ascii) (w : World),
    ~ In code (chars "vLabrqp") ->
    exists w',
      interpret_command fmt_g (code :: args) w = Some (tt, w')
      /\ stdout w' = stdout w ++ code :: chars " error: Unknown command" ++ [NL]
      /\ mentions_error (drop (length (stdout w)) (stdout w'))
      /\ trace w' = trace w ++ indicator (override_led w) true
                            ++ indicator (override_led w) false
      /\ adc_samples w' = adc_samples w
      /\ msg_bytes w' = msg_bytes w
      /\ override_led w' = override_led w
      /\ (icg_levels w', adc_fifo w', adc_conv w', timer w', i2c_acks w')
         = (icg_levels w, adc_fifo w, adc_conv w, timer w, i2c_acks w).
Proof.
  intros fmt_g code args w Hcode.
  assert (Hne : forall c, In c (chars "vLabrqp") -> char_is code c = false).
  { intros c Hc. apply char_is_false. intros ->. now apply Hcode. }
  rewrite interpret_command_eq. cbn [hd tl]. unfold switch_on.
  rewrite !Hne by (cbn; tauto). unfold case_default, printf.
  eexists. split; [reflexivity|].
  rewrite led_off_eq, led_on_eq. world_fields.
  assert (Hout : forall out : list ascii,
            drop (length out) (out ++ line (code :: chars " error: Unknown command"))
            = line (code :: chars " error: Unknown command")).
  { intros out. now rewrite drop_app_length. }
  split; [reflexivity|]. split.
  { rewrite Hout. exists (code :: chars " "), (chars ": Unknown command" ++ [NL]).
    reflexivity. }
  split; [now rewrite <- app_assoc|]. repeat split.
Qed.

(** ** The decimal report read back *)

Lemma digits_no_newline (d : Decimal.uint) :
  Forall (fun c => c <> NL) (chars (NilEmpty.string_of_uint d)).
Proof.
  induction d as [|d IH|d IH|d IH|d IH|d IH|d IH|d IH|d IH|d IH|d IH];
    cbn [NilEmpty.string_of_uint chars list_ascii_of_string];
    constructor; try exact IH; unfold NL; discriminate.
Qed.

Lemma uint_digits_no_newline (d : Decimal.uint) :
  Forall (fun c => c <> NL) (chars (NilZero.string_of_uint d)).
Proof.
  destruct d; try apply digits_no_newline.
  cbn. constructor; [unfold NL; discriminate | constructor].
Qed.

Lemma decimal_no_newline (v : Z) : Forall (fun c => c <> NL) (decimal v).
Proof.
  unfold decimal. destruct (Z.to_int v) as [d|d]; cbn [NilZero.string_of_int].
  - apply uint_digits_no_newline.
  - constructor; [unfold NL; discriminate|].
    apply uint_digits_no_newline.
Qed.

Lemma parse_decimal_decimal (v : Z) : parse_decimal (decimal v) = Some v.
Proof.
  unfold parse_decimal, decimal, chars. rewrite string_of_list_ascii_of_string.
  rewrite NilZero.isi.
  - cbn [option_map]. now rewrite DecimalZ.of_to.
  - destruct v as [|p|p]; cbn [Z.to_int]; try discriminate.
    intros [= H]. now apply (DecimalPos.Unsigned.to_uint_nonnil p).
  - destruct v as [|p|p]; cbn [Z.to_int]; try discriminate.
    intros [= H]. now apply (DecimalPos.Unsigned.to_uint_nonnil p).
Qed.

Lemma lines_of_decimal_lines (samples : list Z) :
  lines_of (flat_map (fun v => line (decimal v)) samples) = map decimal samples.
Proof.
  unfold lines_of. induction samples as [|v samples IH]; [reflexivity|].
  cbn [flat_map map]. rewrite lines_from_line by apply decimal_no_newline.
  now rewrite IH.
Qed.

(** X6. The ['r'] report can be read back: its lines, one per sample and
    in buffer order, are decimal numerals that parse to the samples, so a
    host recovers the whole buffer, values above 4095 included. *)
Theorem decimal_report_roundtrip :
  forall (fmt_g : float -> list ascii) (args : list ascii) (w : World),
    length (adc_samples w) = N_SAMPLES ->
    exists w' lines,
      interpret_command fmt_g ("r"%char :: args) w = Some (tt, w')
      /\ stdout w' = stdout w ++ flat_map line lines
      /\ lines_of (flat_map line lines) = lines
      /\ length lines = N_SAMPLES
      /\ map parse_decimal lines = map Some (adc_samples w)
      /\ adc_samples w' = adc_samples w.
Proof.
  intros fmt_g args w Hlen.
  exists (led_off (set_stdout (stdout w ++ report_text "r" (adc_samples w)) (led_on w))),
         (map decimal (adc_samples w)).
  assert (Hlines : flat_map line (map decimal (adc_samples w))
                   = flat_map (fun v => line (decimal v)) (adc_samples w)).
  { clear. induction (adc_samples w) as [|v l IH]; [reflexivity|].
    cbn [map flat_map]. now rewrite IH. }
  split; [apply (report_run fmt_g ("r"%char :: args) w); now left|].
  rewrite led_off_eq, led_on_eq. world_fields. unfold report_text.
  change (char_is "r" "r") with true. cbv iota.
  rewrite decimal_report_samples by exact Hlen.
  split; [now rewrite Hlines|].
  split; [rewrite Hlines; apply lines_of_decimal_lines|].
  split; [now rewrite length_map|].
  split; [|reflexivity].
  rewrite map_map. apply map_ext. intros v. apply parse_decimal_decimal.
Qed.

(** * The theorems at concrete inputs *)

Lemma packed_report_roundtrip_witness :
  length (adc_samples bench_world) = N_SAMPLES
  /\ exists w' lines,
       interpret_command no_format (chars "q") bench_world = Some (tt, w')
       /\ length lines = 190%nat
       /\ flat_map decode_pairs lines
          = map (fun v => v mod 4096) (adc_samples bench_world).
Proof.
  split; [reflexivity|].
  destruct (packed_report_roundtrip no_format [] bench_world eq_refl)
    as (w' & lines & Hrun & _ & _ & Hcount & _ & _ & Hdecode).
  exists w', lines. split; [exact Hrun|]. split; [exact Hcount | exact Hdecode].
Defined.

Lemma batch_waits_for_low_then_high_witness :
  length (adc_samples bench_world) = N_SAMPLES
  /\ exists w', interpret_command no_format (chars "b") bench_world = Some (tt, w').
Proof.
  split; [reflexivity|].
  destruct (batch_waits_for_low_then_high no_format [] bench_world eq_refl) as [Hruns _].
  apply (Hruns 1%nat 1%nat [] 100 8100 [] (repeat 7 N_SAMPLES) []);
    [reflexivity | reflexivity | symmetry; apply app_nil_r | apply repeat_length].
Defined.

Lemma period_command_transmits_witness :
  exists w' reply,
    interpret_command no_format (chars "p 300 8400") bench_world = Some (tt, w')
    /\ msg_bytes w' = [1; 44; 32; 208]
    /\ stdout w' = reply
    /\ (reply = line (chars "p 300 8400") <-> 4 = 4).
Proof.
  destruct (period_command_transmits no_format (chars " 300 8400") (chars "300")
              (chars "8400") (chars "8400") [] 4 [3] bench_world
              eq_refl eq_refl ltac:(vm_compute; split; [discriminate | reflexivity])
              ltac:(vm_compute; split; [discriminate | reflexivity]) eq_refl)
    as (w' & reply & Hrun & Hmsg & _ & Hout & Hiff & _).
  exists w', reply. split; [exact Hrun|]. split; [exact Hmsg|].
  split; [exact Hout | exact Hiff].
Defined.


Lemma period_command_missing_token_witness :
  missing_token_reply [] = Some (chars "p error: no value for us_SH (nor us_ICG)")
  /\ exists w',
       main_loop no_format 2 bench_world = main_loop no_format 1 w'
       /\ stdin w' = chars "v" ++ [NL]
       /\ stdout w' = line (chars "p error: no value for us_SH (nor us_ICG)").
Proof.
  split; [reflexivity|].
  destruct (period_command_missing_token no_format []
              (chars "p error: no value for us_SH (nor us_ICG)") bench_world eq_refl)
    as (_ & _ & _ & Hloop).
  destruct (Hloop 1%nat (chars "v" ++ [NL]) (List.Forall_nil _) ltac:(vm_compute; discriminate)
              eq_refl eq_refl)
    as (w' & Hrun & Hin & Hout & _).
  exists w'. split; [exact Hrun|]. split; [exact Hin | exact Hout].
Defined.

Lemma led_command_witness :
  exists w',
    interpret_command no_format (chars "L 5") bench_world = Some (tt, w')
    /\ stdout w' = stdout bench_world ++ line (chars "L 1")
    /\ override_led w' = 1 /\ led w' = true.
Proof.
  destruct (led_command no_format bench_world) as (_ & _ & Hfive & _). exact Hfive.
Defined.

Lemma reports_are_repeatable_witness :
  Forall is_report [chars "r"; chars "q"; chars "r"]
  /\ exists w',
       run_commands no_format [chars "r"; chars "q"; chars "r"] bench_world = Some (tt, w')
       /\ adc_samples w' = adc_samples bench_world.
Proof.
  assert (Hcmds : Forall is_report [chars "r"; chars "q"; chars "r"]).
  { constructor; [left; reflexivity|]. constructor; [right; reflexivity|].
    constructor; [left; reflexivity|]. constructor. }
  split; [exact Hcmds|].
  destruct (reports_are_repeatable no_format _ bench_world Hcmds) as (w' & Hrun & Hbuf & _).
  exists w'. split; [exact Hrun | exact Hbuf].
Defined.

Lemma getstr_terminates_within_bounds_witness :
  exists st rest,
    getstr_run 4 (stdin short_buffer_world) (bufA short_buffer_world) = Some (st, rest)
    /\ 0 <= ls_i st <= 3
    /\ ls_buf st !! Z.to_nat (ls_i st) = Some NUL
    /\ Forall (fun j => 0 <= j < 4) (ls_writes st).
Proof.
  destruct (getstr_terminates_within_bounds 4 short_buffer_world ltac:(lia) eq_refl
              ltac:(vm_compute; tauto))
    as (st & rest & Hrun & _ & Hi & Hnul & _ & Hw & _).
  exists st, rest. split; [exact Hrun|]. split; [exact Hi|]. split; [exact Hnul | exact Hw].
Defined.

Lemma period_values_wrap_to_16_bits_witness :
  i2c_acks bench_world = 4 :: [3]
  /\ exists w',
       interpret_command no_format (chars "p 70000 8400") bench_world = Some (tt, w')
       /\ stdout w' = stdout bench_world ++ line (chars "p 4464 8400").
Proof.
  split; [reflexivity|].
  destruct (period_values_wrap_to_16_bits no_format bench_world 4 [3] eq_refl)
    as (_ & w' & Hrun & _ & _ & _ & Hout).
  exists w'. split; [exact Hrun | exact (Hout eq_refl)].
Defined.

Lemma batch_statistics_witness :
  Forall adc_reading noisy_batch
  /\ sum_Z noisy_batch = Z.of_nat N_SAMPLES * 100
  /\ sum_sq 100 noisy_batch = (Z.of_nat N_SAMPLES - 1) * (2 * 2)
  /\ exists w',
       interpret_command no_format (chars "b") fused_bench_world = Some (tt, w')
       /\ adc_samples w' = noisy_batch
       /\ batch_mean noisy_batch = f32_of_Z 100
       /\ batch_stddev (fp_contract fused_bench_world) noisy_batch (batch_mean noisy_batch)
          = f32_of_Z 2.
Proof.
  assert (Hadc : Forall adc_reading noisy_batch).
  { unfold noisy_batch. repeat (apply Forall_app; split);
      apply List.Forall_forall; intros v Hv; apply repeat_spec in Hv; subst v;
      unfold adc_reading; lia. }
  split; [exact Hadc|]. split; [reflexivity|]. split; [reflexivity|].
  destruct (batch_statistics no_format [] fused_bench_world 1 1 [] 100 8100 [] noisy_batch []
              eq_refl eq_refl (eq_sym (app_nil_r _)) eq_refl eq_refl Hadc)
    as ((w' & Hrun & Hsamples & _) & _ & Hinteger & _).
  destruct (Hinteger 100 eq_refl) as (Hmean & _ & Hdev).
  destruct (Hdev eq_refl) as (_ & Hvariance).
  destruct (Hvariance 4 eq_refl) as (_ & _ & Hroot).
  exists w'. split; [exact Hrun|]. split; [exact Hsamples|]. split; [exact Hmean|].
  exact (Hroot 2 ltac:(lia) eq_refl).
Defined.

Lemma getstr_returns_the_edited_line_witness :
  exists w' tail,
    getstr 4 (set_stdin (chars "ab" ++ BS :: chars "c" ++ [CR; NL; "v"%char]) short_buffer_world)
    = Some (2, w')
    /\ stdin w' = ["v"%char]
    /\ bufA w' = chars "ac" ++ NUL :: tail.
Proof.
  destruct (getstr_returns_the_edited_line 4 (chars "ab" ++ BS :: chars "c" ++ [CR])
              ["v"%char]
              (set_stdin (chars "ab" ++ BS :: chars "c" ++ [CR; NL; "v"%char])
                 short_buffer_world))
    as (w' & tail & Hrun & Hin & Hbuf & _).
  - lia.
  - reflexivity.
  - cbn. intros H. repeat (destruct H as [H|H]; [discriminate H|]). exact H.
  - reflexivity.
  - exists w', tail. split; [exact Hrun|]. split; [exact Hin | exact Hbuf].
Defined.

Lemma getstr_skips_returns_and_leading_backspaces_witness :
  getstr 4 (set_stdin (chars "a" ++ CR :: chars "b" ++ [NL]) short_buffer_world)
  = getstr 4 (set_stdin (chars "a" ++ chars "b" ++ [NL]) short_buffer_world).
Proof.
  apply (getstr_skips_returns_and_leading_backspaces 4 (chars "a") (chars "b" ++ [NL])
           short_buffer_world).
  cbn. intros H. repeat (destruct H as [H|H]; [discriminate H|]). exact H.
Defined.

Lemma getstr_truncates_long_lines_witness :
  exists w',
    getstr 4 (set_stdin (chars "abcdef" ++ [NL]) short_buffer_world) = Some (3, w')
    /\ cstring (bufA w') = chars "abc"
    /\ stdin w' = [].
Proof.
  apply (getstr_truncates_long_lines 4 (chars "abcdef") []
           (set_stdin (chars "abcdef" ++ [NL]) short_buffer_world)).
  - lia.
  - reflexivity.
  - repeat constructor; discriminate.
  - reflexivity.
Defined.

Lemma main_ignores_empty_lines_witness :
  exists buf,
    main_loop no_format 2 (set_stdin (chars "x" ++ [BS; CR; NL] ++ chars "v" ++ [NL]) bench_world)
    = main_loop no_format 1 (set_stdin (chars "v" ++ [NL]) (set_bufA buf bench_world)).
Proof.
  apply (main_ignores_empty_lines no_format 1 (chars "x" ++ [BS; CR]) (chars "v" ++ [NL])
           (set_stdin (chars "x" ++ [BS; CR; NL] ++ chars "v" ++ [NL]) bench_world)).
  - cbn. intros H. repeat (destruct H as [H|H]; [discriminate H|]). exact H.
  - reflexivity.
  - reflexivity.
  - reflexivity.
Defined.

Lemma unknown_command_reports_error_witness :
  exists w',
    interpret_command no_format (chars "x 1") bench_world = Some (tt, w')
    /\ stdout w' = stdout bench_world ++ line (chars "x error: Unknown command").
Proof.
  destruct (unknown_command_reports_error no_format "x"%char (chars " 1") bench_world)
    as (w' & Hrun & Hout & _).
  - cbn. intros H. repeat (destruct H as [H|H]; [discriminate H|]). exact H.
  - exists w'. split; [exact Hrun | exact Hout].
Defined.

Lemma decimal_report_roundtrip_witness :
  length (adc_samples bench_world) = N_SAMPLES
  /\ exists w' lines,
       interpret_command no_format (chars "r") bench_world = Some (tt, w')
       /\ length lines = N_SAMPLES
       /\ map parse_decimal lines = map Some (adc_samples bench_world).
Proof.
  split; [reflexivity|].
  destruct (decimal_report_roundtrip no_format [] bench_world eq_refl)
    as (w' & lines & Hrun & _ & _ & Hcount & Hparse & _).
  exists w', lines. split; [exact Hrun|]. split; [exact Hcount | exact Hparse].
Defined.
